(** * AgentArcade: skill-chip fusion, tournament brackets, scenario runs

    A shallow embedding of the engine code of the AgentArcade repository:

    - [SkillChipSystem] and [ChipDatabase] (skill-chip module): rarity roll,
      fusion rules, [canFuse], [createFusion], [fuseChips];
    - [BracketGenerator] and [TournamentManager] (tournament module):
      bracket construction, match running, winner advancement, the status
      life cycle of a tournament;
    - [ScenarioExecution] (scenario module): the bounded decision loop.

    JavaScript strings are [string], objects are records, a [Map] keyed by
    strings is a [gmap string _], arrays are lists.  Code that can throw
    returns a [result]; code that mutates [this] is a function on the state of
    the object in a small state-and-exception monad.  Everything the code
    reaches outside of itself (storage, [Math.random], [Date.now], the agent's
    decision function) is an explicit oracle argument. *)

From stdpp Require Import gmap strings list fin_maps pretty.
From Stdlib Require Import ZArith QArith.

Local Open Scope string_scope.
Local Open Scope Z_scope.

(** ** Exceptions and state *)

(** A JavaScript computation either returns a value or throws an [Error]
    carrying a message. *)
Inductive result (A : Type) : Type :=
| Ok (a : A)
| Throw (msg : string).
Arguments Ok {A} a.
Arguments Throw {A} msg.

Definition is_ok {A} (r : result A) : bool :=
  match r with Ok _ => true | Throw _ => false end.

(** A method of an object with state [St]: it returns or throws, and in both
    cases the mutations done so far stay. *)
Definition M (St A : Type) : Type := St -> result A * St.

Definition ret {St A} (a : A) : M St A := fun s => (Ok a, s).
Definition throw {St A} (msg : string) : M St A := fun s => (Throw msg, s).
Definition bind {St A B} (c : M St A) (k : A -> M St B) : M St B :=
  fun s => match c s with
           | (Ok a, s') => k a s'
           | (Throw msg, s') => (Throw msg, s')
           end.
Definition get {St} : M St St := fun s => (Ok s, s).
Definition modify {St} (f : St -> St) : M St unit := fun s => (Ok tt, f s).

Notation "'do' x <- c ;; k" := (bind c (fun x => k))
  (at level 63, x name, c at next level, right associativity).
Notation "c ;;; k" := (bind c (fun _ => k))
  (at level 63, right associativity).

(** ** Skill chips *)

Record Effect := mkEffect { eff_name : string; eff_value : Z }.

(** [new SkillChip(config)]: the fields the chip module writes. *)
Record SkillChip := mkSkillChip {
  chip_id : string;
  chip_type : string;
  chip_name : string;
  chip_description : string;
  category : string;
  rarity : string;
  effects : list Effect;
  acquired : string;
  fused : bool;
  fusedFrom : option (string * string);
  userId : option string
}.

Record UserProfile := mkUserProfile {
  profile_id : string;
  skillChipsCollected : Z
}.

(** *** ChipDatabase.createFusion *)

Definition rarityOrder : list string := ["common"; "rare"; "epic"; "legendary"].

(** [Array.prototype.indexOf]: the first index holding [x], or [-1]. *)
Fixpoint indexOf_from (x : string) (l : list string) (i : Z) : Z :=
  match l with
  | [] => -1
  | y :: l' => if bool_decide (y = x) then i else indexOf_from x l' (i + 1)
  end.

Definition indexOf (l : list string) (x : string) : Z := indexOf_from x l 0.

(** [l[i]] for an index the code has computed; ["undefined"] stands for the
    value JavaScript gives out of range (never reached from [createFusion],
    see [createFusion_index_in_range]). *)
Definition at_index (l : list string) (i : Z) : string :=
  if i <? 0 then "undefined" else default "undefined" (l !! Z.to_nat i).

(** [newId] is the value of [generateId()] and [now] that of
    [new Date().toISOString()] at the call. *)
Definition createFusion (newId now : string) (chip1 chip2 : SkillChip) : SkillChip :=
  let fusedEffects := (effects chip1 ++ effects chip2)%list in
  let fusedName := chip_name chip1 +:+ " + " +:+ chip_name chip2 in
  let currentIndex := indexOf rarityOrder (rarity chip1) in
  let newRarity :=
    if currentIndex <? Z.of_nat (length rarityOrder) - 1
    then at_index rarityOrder (currentIndex + 1)
    else rarity chip1 in
  {| chip_id := newId;
     chip_type := "fused";
     chip_name := fusedName;
     chip_description :=
       "Fused chip combining " +:+ chip_name chip1 +:+ " and " +:+ chip_name chip2;
     category := "synergy";
     rarity := newRarity;
     effects := fusedEffects;
     acquired := now;
     fused := true;
     fusedFrom := Some (chip_id chip1, chip_id chip2);
     userId := None |}.

(** *** SkillChipSystem: fusion rules and canFuse *)

Definition rules : list (string * string) :=
  [ ("processing", "logic");
    ("processing", "memory");
    ("logic", "memory");
    ("logic", "synergy");
    ("memory", "synergy");
    ("processing", "synergy");
    ("synergy", "special") ].

(** The template literal [`${a}-${b}`]. *)
Definition ruleKeyOf (a b : string) : string := a +:+ "-" +:+ b.

(** [rules.forEach(([cat1, cat2]) => { set(cat1-cat2); set(cat2-cat1) })],
    on the map [m] the system already holds. *)
Definition initializeFusionRules (m : gmap string bool) : gmap string bool :=
  foldl (fun acc '(cat1, cat2) =>
           <[ruleKeyOf cat2 cat1 := true]> (<[ruleKeyOf cat1 cat2 := true]> acc))
        m rules.

(** [Map.prototype.has]. *)
Definition has {V} (m : gmap string V) (k : string) : bool :=
  match m !! k with Some _ => true | None => false end.

Definition canFuse (fusionRules : gmap string bool) (chip1 chip2 : SkillChip) : bool :=
  if negb (bool_decide (rarity chip1 = rarity chip2)) then false
  else
    let ruleKey := ruleKeyOf (category chip1) (category chip2) in
    let reverseRuleKey := ruleKeyOf (category chip2) (category chip1) in
    has fusionRules ruleKey || has fusionRules reverseRuleKey.

(** *** SkillChipSystem: the collection and fuseChips *)

(** The persistence collaborator of the chip system, with state [S]: each
    call returns or throws and leaves a new storage state. *)
Record ChipStorage (S : Type) := mkChipStorage {
  getUserProfile : M S (option UserProfile);
  saveSkillChip : SkillChip -> M S unit;
  saveUserProfile : UserProfile -> M S unit;
  deleteSkillChip : string -> M S unit
}.
Arguments getUserProfile {S} _.
Arguments saveSkillChip {S} _ _.
Arguments saveUserProfile {S} _ _.
Arguments deleteSkillChip {S} _ _.

(** The fields of a [SkillChipSystem] that fusion reads and writes. *)
Record ChipSystem (S : Type) := mkChipSystem {
  userCollection : gmap string SkillChip;
  fusionRules : gmap string bool;
  storage : S
}.
Arguments mkChipSystem {S} _ _ _.
Arguments userCollection {S} _.
Arguments fusionRules {S} _.
Arguments storage {S} _.

(** The system as its constructor leaves it, on the storage [st]. *)
Definition newChipSystem {S} (st : S) : ChipSystem S :=
  mkChipSystem ∅ (initializeFusionRules ∅) st.

Definition onStorage {S A} (c : M S A) : M (ChipSystem S) A :=
  fun sys =>
    let '(r, st') := c (storage sys) in
    (r, mkChipSystem (userCollection sys) (fusionRules sys) st').

Definition collection_set {S} (k : string) (chip : SkillChip) : M (ChipSystem S) unit :=
  modify (fun sys =>
    mkChipSystem (<[k := chip]> (userCollection sys)) (fusionRules sys) (storage sys)).

Definition collection_delete {S} (k : string) : M (ChipSystem S) unit :=
  modify (fun sys =>
    mkChipSystem (delete k (userCollection sys)) (fusionRules sys) (storage sys)).

Definition set_userId (chip : SkillChip) (uid : string) : SkillChip :=
  {| chip_id := chip_id chip; chip_type := chip_type chip;
     chip_name := chip_name chip; chip_description := chip_description chip;
     category := category chip; rarity := rarity chip; effects := effects chip;
     acquired := acquired chip; fused := fused chip; fusedFrom := fusedFrom chip;
     userId := Some uid |}.

(** [addChipToCollection].  The chip object put into the map is the one
    whose [userId] is written afterwards, so the map entry changes with it.
    The closing [this.checkAchievements()] is not awaited: its promise is
    dropped and nothing of it reaches the value returned here, so it is left
    out.  The [catch] only logs and rethrows. *)
Definition addChipToCollection {S} (ops : ChipStorage S) (chip : SkillChip)
  : M (ChipSystem S) SkillChip :=
  collection_set (chip_id chip) chip ;;;
  do userProfile <- onStorage (getUserProfile ops) ;;
  match userProfile with
  | Some p =>
      let chip' := set_userId chip (profile_id p) in
      collection_set (chip_id chip) chip' ;;;
      onStorage (saveSkillChip ops chip') ;;;
      onStorage (saveUserProfile ops
        {| profile_id := profile_id p;
           skillChipsCollected := skillChipsCollected p + 1 |}) ;;;
      ret chip'
  | None => ret chip
  end.

Definition fuseChips {S} (ops : ChipStorage S) (newId now : string)
    (chip1Id chip2Id : string) : M (ChipSystem S) SkillChip :=
  fun sys =>
    match userCollection sys !! chip1Id, userCollection sys !! chip2Id with
    | Some chip1, Some chip2 =>
        if negb (canFuse (fusionRules sys) chip1 chip2)
        then (Throw "These chips cannot be fused", sys)
        else
          (let fusedChip := createFusion newId now chip1 chip2 in
           collection_delete chip1Id ;;;
           collection_delete chip2Id ;;;
           onStorage (deleteSkillChip ops chip1Id) ;;;
           onStorage (deleteSkillChip ops chip2Id) ;;;
           addChipToCollection ops fusedChip) sys
    | _, _ => (Throw "One or both chips not found in collection", sys)
    end.

(** *** SkillChipSystem.rollRarity *)

(** JavaScript numbers are IEEE doubles.  The code below is written over an
    arbitrary number type [F] with the operations the function uses, so that
    what is proved of its control flow holds for doubles as well; [lit] reads
    a decimal literal of the source. *)
Record Arith (F : Type) := mkArith {
  lit : Q -> F;
  fadd : F -> F -> F;
  fmul : F -> F -> F;
  fdiv : F -> F -> F;
  fle : F -> F -> bool
}.
Arguments lit {F} _ _.
Arguments fadd {F} _ _ _.
Arguments fmul {F} _ _ _.
Arguments fdiv {F} _ _ _.
Arguments fle {F} _ _ _.

(** Exact rational arithmetic, the reading of the numbers without rounding. *)
Definition exact : Arith Q :=
  {| lit := fun q => q; fadd := Qplus; fmul := Qmult; fdiv := Qdiv; fle := Qle_bool |}.

(** What [rollRarity] reads of its [context] argument: [tournament?.tier],
    and the truth values of [firstWin] and [perfectScore]. *)
Record RollContext := mkRollContext {
  tournament_tier : option string;
  firstWin : bool;
  perfectScore : bool
}.

(** An object with the four rarity keys, in insertion order, which is the
    order [Object.entries], [Object.values] and [Object.keys] follow. *)
Definition rarityWeights {F} (A : Arith F) : list (string * F) :=
  [ ("common", lit A (70 # 100));
    ("rare", lit A (25 # 100));
    ("epic", lit A (45 # 1000));
    ("legendary", lit A (5 # 1000)) ].

(** [weights[key] *= k]. *)
Definition scale {F} (A : Arith F) (key : string) (k : Q) (weights : list (string * F))
  : list (string * F) :=
  map (fun e => if bool_decide (e.1 = key) then (e.1, fmul A e.2 (lit A k)) else e) weights.

(** The loop [for (const [rarity, weight] of Object.entries(weights))]. *)
Fixpoint rollLoop {F} (A : Arith F) (roll cumulative : F) (entries : list (string * F))
  : string :=
  match entries with
  | [] => "common"
  | (rarity, weight) :: rest =>
      let cumulative := fadd A cumulative weight in
      if fle A roll cumulative then rarity else rollLoop A roll cumulative rest
  end.

Definition applyModifiers {F} (A : Arith F) (context : RollContext) : list (string * F) :=
  let weights := rarityWeights A in
  let weights :=
    if bool_decide (tournament_tier context = Some "legendary")
    then scale A "epic" 2 (scale A "legendary" 5 weights)
    else if bool_decide (tournament_tier context = Some "epic")
    then scale A "rare" (15 # 10) (scale A "epic" 3 weights)
    else weights in
  let weights :=
    if firstWin context
    then scale A "epic" (15 # 10) (scale A "rare" 2 weights)
    else weights in
  if perfectScore context
  then scale A "epic" 3 (scale A "legendary" 10 weights)
  else weights.

Definition normalize {F} (A : Arith F) (weights : list (string * F)) : list (string * F) :=
  let totalWeight := foldl (fun sum weight => fadd A sum weight) (lit A 0) (map snd weights) in
  map (fun e => (e.1, fdiv A e.2 totalWeight)) weights.

(** [roll] is the value of [Math.random()] at the call. *)
Definition rollRarity {F} (A : Arith F) (context : RollContext) (roll : F) : string :=
  let weights := normalize A (applyModifiers A context) in
  rollLoop A roll (lit A 0) weights.

(** ** Brackets *)

#[local] Set Warnings "-register-all".

(** What stands in a participant slot: a registration record pushed by
    [joinTournament], the object [{ agentId: winner }] written by
    [advanceWinners], or a team built by [createTeams]. *)
Inductive Entrant : Type :=
| Registered (agentId joinedAt status : string)
| Advanced (agentId : string)
| Team (team_id : string) (members : list Entrant).

(** [participant.agentId]; a team object has no such property. *)
Definition agentId_of (p : Entrant) : option string :=
  match p with
  | Registered a _ _ => Some a
  | Advanced a => Some a
  | Team _ _ => None
  end.

Record MatchResult := mkMatchResult {
  winner : option string;
  loser : option string;
  score : list (string * Z);
  metrics : option (Z * Z);
  error : option string
}.

Record Match := mkMatch {
  match_id : string;
  participant1 : option Entrant;
  participant2 : option Entrant;
  match_scenario : option (string * string);
  match_status : string;
  match_result : option MatchResult
}.

(** [nextRound] is read by [advanceWinners]; no generator writes it. *)
Record Round := mkRound {
  round_id : string;
  number : Z;
  matches : list Match;
  isFinal : bool;
  nextRound : option string
}.

Record Bracket := mkBracket {
  bracket_type : string;
  rounds : list Round
}.

Definition pendingMatch (id : string) (p1 p2 : Entrant) : Match :=
  {| match_id := id; participant1 := Some p1; participant2 := Some p2;
     match_scenario := None; match_status := "pending"; match_result := None |}.

(** The inner loop [for (let i = 0; i < currentParticipants.length; i += 2)]
    of [generateSingleElimination], on the part of the list from [i] on. *)
Fixpoint pairUp (roundNumber : Z) (currentParticipants : list Entrant)
    (matches : list Match) (nextRoundParticipants : list Entrant)
  : list Match * list Entrant :=
  match currentParticipants with
  | p1 :: p2 :: rest =>
      pairUp roundNumber rest
        (matches ++ [pendingMatch
           ("match_" +:+ pretty roundNumber +:+ "_" +:+ pretty (Z.of_nat (length matches) + 1))
           p1 p2])%list
        nextRoundParticipants
  | [p] => (matches, (nextRoundParticipants ++ [p])%list)
  | [] => (matches, nextRoundParticipants)
  end.

(** The loop [while (currentParticipants.length > 1)].  [fuel] bounds the
    number of iterations; [singleEliminationLoop_fuel] shows that the length
    of the list is always enough. *)
Fixpoint singleEliminationLoop (fuel : nat) (rounds : list Round)
    (currentParticipants : list Entrant) (roundNumber : Z) : list Round :=
  match fuel with
  | O => rounds
  | S fuel' =>
      if 1 <? Z.of_nat (length currentParticipants) then
        let '(matches, nextRoundParticipants) := pairUp roundNumber currentParticipants [] [] in
        singleEliminationLoop fuel'
          (rounds ++ [ {| round_id := "round_" +:+ pretty roundNumber;
                          number := roundNumber;
                          matches := matches;
                          isFinal := Z.of_nat (length currentParticipants) <=? 2;
                          nextRound := None |} ])%list
          nextRoundParticipants (roundNumber + 1)
      else rounds
  end.

Definition generateSingleElimination (participants : list Entrant) : Bracket :=
  {| bracket_type := "single-elimination";
     rounds := singleEliminationLoop (length participants) [] participants 1 |}.

(** The two nested loops of [generateRoundRobin]; [matchId] of the source is
    always one more than the number of matches pushed so far. *)
Fixpoint roundRobinLoop (participants : list Entrant) (matches : list Match) : list Match :=
  match participants with
  | [] => matches
  | p :: rest =>
      roundRobinLoop rest
        (foldl (fun ms q =>
                  (ms ++ [pendingMatch ("match_" +:+ pretty (Z.of_nat (length ms) + 1)) p q])%list)
               matches rest)
  end.

Definition generateRoundRobin (participants : list Entrant) : Bracket :=
  {| bracket_type := "round-robin";
     rounds := [ {| round_id := "round_1"; number := 1;
                    matches := roundRobinLoop participants [];
                    isFinal := true; nextRound := None |} ] |}.

Definition getGauntletScenarios : list (string * string) :=
  [ ("gauntlet_1", "easy"); ("gauntlet_2", "medium"); ("gauntlet_3", "hard");
    ("gauntlet_4", "expert"); ("gauntlet_5", "master") ].

Definition generateGauntlet (participants : list Entrant) : result Bracket :=
  match participants with
  | [p] =>
      Ok {| bracket_type := "gauntlet";
            rounds := [ {| round_id := "gauntlet_round"; number := 1;
                           matches :=
                             imap (fun index scenario =>
                                     {| match_id := "gauntlet_" +:+ pretty (Z.of_nat index + 1);
                                        participant1 := Some p; participant2 := None;
                                        match_scenario := Some scenario;
                                        match_status := "pending"; match_result := None |})
                                  getGauntletScenarios;
                           isFinal := true; nextRound := None |} ] |}
  | _ => Throw "Gauntlet mode requires exactly one participant"
  end.

Fixpoint createTeams (participants : list Entrant) (teams : list Entrant) : list Entrant :=
  match participants with
  | p1 :: p2 :: rest =>
      createTeams rest
        (teams ++ [Team ("team_" +:+ pretty (Z.of_nat (length teams) + 1)) [p1; p2]])%list
  | _ => teams
  end.

Definition generateTeamBattle (participants : list Entrant) : Bracket :=
  generateSingleElimination (createTeams participants []).

Definition generate (participants : list Entrant) (type : string) : result Bracket :=
  if bool_decide (type = "single-elimination") then Ok (generateSingleElimination participants)
  else if bool_decide (type = "round-robin") then Ok (generateRoundRobin participants)
  else if bool_decide (type = "gauntlet") then generateGauntlet participants
  else if bool_decide (type = "team-battle") then Ok (generateTeamBattle participants)
  else Throw ("Unknown tournament type: " +:+ type).

(** ** Running matches and rounds *)

Record Agent := mkAgent { agent_id : string }.

Record SimulationResult := mkSimulationResult {
  sim_winner : option string;
  sim_score : list (string * Z);
  sim_metrics : Z * Z
}.

(** What [runMatch] reaches outside the manager.  The matches of a round run
    as interleaved promises, so each answer is given as a function of the
    call and not of an order of calls: [getAgent] by the requested id
    ([None] when [agentId] is [undefined]), [saveMatch] by the match and the
    status of the record saved, [simulateMatch] by the two agents and the
    scenario.  [Ok None] of [getAgent] is a missing record. *)
Record MatchEnv := mkMatchEnv {
  getAgent : option string -> result (option Agent);
  saveMatch : Match -> string -> result unit;
  simulateMatch : Agent -> Agent -> string -> result SimulationResult
}.

Definition bindR {A B} (r : result A) (k : A -> result B) : result B :=
  match r with Ok a => k a | Throw msg => Throw msg end.

Notation "'let?' x := r 'in' k" := (bindR r (fun x => k))
  (at level 63, x name, r at next level, right associativity).

(** Reading a property of [undefined]. *)
Definition property_of {A} (o : option A) : result A :=
  match o with
  | Some a => Ok a
  | None => Throw "Cannot read properties of undefined"
  end.

(** The [try] block of [runMatch]. *)
Definition runMatch_try (env : MatchEnv) (scenario : string) (m : Match)
  : result MatchResult :=
  let? p1 := property_of (participant1 m) in
  let? agent1 := getAgent env (agentId_of p1) in
  let? p2 := property_of (participant2 m) in
  let? agent2 := getAgent env (agentId_of p2) in
  match agent1, agent2 with
  | Some agent1, Some agent2 =>
      let? _ := saveMatch env m "running" in
      let? simulationResult := simulateMatch env agent1 agent2 scenario in
      let winner := sim_winner simulationResult in
      let loser :=
        if bool_decide (winner = Some (agent_id agent1))
        then agent_id agent2 else agent_id agent1 in
      let? _ := saveMatch env m "completed" in
      Ok {| winner := winner; loser := Some loser;
            score := sim_score simulationResult;
            metrics := Some (sim_metrics simulationResult);
            error := None |}
  | _, _ => Throw "One or both agents not found"
  end.

(** [runMatch]: the [catch] turns every failure into a result object. *)
Definition runMatch (env : MatchEnv) (scenario : string) (m : Match) : MatchResult :=
  match runMatch_try env scenario m with
  | Ok r => r
  | Throw msg =>
      {| winner := None; loser := None; score := []; metrics := None; error := Some msg |}
  end.

Definition set_result (m : Match) (r : MatchResult) : Match :=
  {| match_id := match_id m; participant1 := participant1 m;
     participant2 := participant2 m; match_scenario := match_scenario m;
     match_status := "completed"; match_result := Some r |}.

Definition set_participant1 (m : Match) (p : Entrant) : Match :=
  {| match_id := match_id m; participant1 := Some p;
     participant2 := participant2 m; match_scenario := match_scenario m;
     match_status := match_status m; match_result := match_result m |}.

Definition set_participant2 (m : Match) (p : Entrant) : Match :=
  {| match_id := match_id m; participant1 := participant1 m;
     participant2 := Some p; match_scenario := match_scenario m;
     match_status := match_status m; match_result := match_result m |}.

Definition set_matches (r : Round) (ms : list Match) : Round :=
  {| round_id := round_id r; number := number r; matches := ms;
     isFinal := isFinal r; nextRound := nextRound r |}.

Definition set_round (b : Bracket) (ri : nat) (r : Round) : Bracket :=
  {| bracket_type := bracket_type b; rounds := <[ri := r]> (rounds b) |}.

(** A string is truthy when it is not empty; [null] is falsy. *)
Definition truthy (s : option string) : option string :=
  match s with
  | Some w => if bool_decide (w = "") then None else Some w
  | None => None
  end.

(** [match.result && match.result.winner]. *)
Definition winner_of (m : Match) : option string :=
  match match_result m with
  | Some r => truthy (winner r)
  | None => None
  end.

(** [rounds.find(r => r.id === id)], as the index of the round found. *)
Fixpoint find_round (id : string) (rs : list Round) (i : nat) : option nat :=
  match rs with
  | [] => None
  | r :: rs' => if bool_decide (round_id r = id) then Some i else find_round id rs' (S i)
  end.

(** The body of the [forEach] of [advanceWinners] for one match: the slot of
    the next round's match [floor(index / 2)] is overwritten; a missing next
    match makes the assignment throw. *)
Definition place (nj : nat) (index : nat) (w : string) : M Bracket unit :=
  fun b =>
    let nextMatchIndex := (index / 2)%nat in
    match rounds b !! nj with
    | Some nextRound =>
        match matches nextRound !! nextMatchIndex with
        | Some nextMatch =>
            let nextMatch' :=
              if Nat.even index
              then set_participant1 nextMatch (Advanced w)
              else set_participant2 nextMatch (Advanced w) in
            (Ok tt, set_round b nj
                      (set_matches nextRound (<[nextMatchIndex := nextMatch']> (matches nextRound))))
        | None => (Throw "Cannot set properties of undefined", b)
        end
    | None => (Ok tt, b)
    end.

Fixpoint advanceLoop (nj : nat) (ms : list Match) (index : nat) : M Bracket unit :=
  match ms with
  | [] => ret tt
  | m :: rest =>
      (match winner_of m with
       | Some w => place nj index w
       | None => ret tt
       end) ;;;
      advanceLoop nj rest (S index)
  end.

(** [advanceWinners(round, bracket)], the round given by its index [ri] in
    [bracket.rounds].  The loop reads only the results of the round's own
    matches, which it does not write. *)
Definition advanceWinners (ri : nat) : M Bracket unit :=
  fun b =>
    match rounds b !! ri with
    | Some round =>
        match truthy (nextRound round) with
        | Some id =>
            match find_round id (rounds b) 0 with
            | Some nj => advanceLoop nj (matches round) 0 b
            | None => (Ok tt, b)
            end
        | None => (Ok tt, b)
        end
    | None => (Ok tt, b)
    end.

(** [processRound]: every match is run, the results are written onto the
    matches, then the winners are advanced. *)
Definition processRound (env : MatchEnv) (scenario : string) (ri : nat) : M Bracket unit :=
  fun b =>
    match rounds b !! ri with
    | Some round =>
        let results := map (runMatch env scenario) (matches round) in
        let matches' := zip_with set_result (matches round) results in
        advanceWinners ri (set_round b ri (set_matches round matches'))
    | None => (Ok tt, b)
    end.

(** ** Tournaments *)

Inductive TournamentStatus : Type := Registration | Running | Completed | Errored.

Global Instance TournamentStatus_eq_dec : EqDecision TournamentStatus.
Proof. solve_decision. Defined.

Record Ranking := mkRanking { rank : Z; rank_agentId : option string; points : Z }.

(** A [Tournament].  [statusHistory] is not a field of the source: it keeps,
    oldest first, the values [status] had before each assignment to it, so
    that the order of the assignments can be stated.  The descriptive fields
    (name, tier, rewards, dates) are not read by the code below and are left
    out. *)
Record Tournament := mkTournament {
  tournament_id : string;
  tournament_type : string;
  tournament_scenario : string;
  maxParticipants : option Z;
  participants : list Entrant;
  bracket : option Bracket;
  status : TournamentStatus;
  rankings : list Ranking;
  statusHistory : list TournamentStatus
}.

Definition set_status (s : TournamentStatus) (t : Tournament) : Tournament :=
  {| tournament_id := tournament_id t; tournament_type := tournament_type t;
     tournament_scenario := tournament_scenario t; maxParticipants := maxParticipants t;
     participants := participants t; bracket := bracket t;
     status := s; rankings := rankings t;
     statusHistory := (statusHistory t ++ [status t])%list |}.

Definition set_bracket (b : option Bracket) (t : Tournament) : Tournament :=
  {| tournament_id := tournament_id t; tournament_type := tournament_type t;
     tournament_scenario := tournament_scenario t; maxParticipants := maxParticipants t;
     participants := participants t; bracket := b;
     status := status t; rankings := rankings t; statusHistory := statusHistory t |}.

Definition set_rankings (r : list Ranking) (t : Tournament) : Tournament :=
  {| tournament_id := tournament_id t; tournament_type := tournament_type t;
     tournament_scenario := tournament_scenario t; maxParticipants := maxParticipants t;
     participants := participants t; bracket := bracket t;
     status := status t; rankings := r; statusHistory := statusHistory t |}.

Definition push_participant (p : Entrant) (t : Tournament) : Tournament :=
  {| tournament_id := tournament_id t; tournament_type := tournament_type t;
     tournament_scenario := tournament_scenario t; maxParticipants := maxParticipants t;
     participants := (participants t ++ [p])%list; bracket := bracket t;
     status := status t; rankings := rankings t; statusHistory := statusHistory t |}.

(** What the manager reaches outside itself.  [round_isComplete] is the
    method [round.isComplete()] called by [processTournamentRounds]: the
    round objects built by [BracketGenerator] are plain objects without such
    a method, for which the call throws; it is kept as an argument so that
    the results below hold whatever it does.  [calculateRankings] draws its
    points from [Math.random]. *)
Record TournamentEnv := mkTournamentEnv {
  matchEnv : MatchEnv;
  saveTournament : Tournament -> result unit;
  checkTournamentRequirements : Tournament -> string -> result bool;
  round_isComplete : Round -> result bool;
  calculateRankings : Tournament -> list Ranking
}.

Definition liftR {St A} (r : result A) : M St A := fun s => (r, s).

(** [try { c } catch (error) { h; throw error }]. *)
Definition try_rethrow {St A} (c : M St A) (h : St -> St) : M St A :=
  fun s => match c s with
           | (Ok a, s') => (Ok a, s')
           | (Throw msg, s') => (Throw msg, h s')
           end.

(** A method of the bracket run on [tournament.bracket]. *)
Definition onBracket {A} (c : M Bracket A) : M Tournament A :=
  fun t =>
    match bracket t with
    | Some b => let '(r, b') := c b in (r, set_bracket (Some b') t)
    | None => (Throw "Cannot read properties of null", t)
    end.

(** [completeTournament]; [distributeRewards] only logs and
    [updateTournamentResults] is empty. *)
Definition completeTournament (env : TournamentEnv) : M Tournament unit :=
  modify (set_status Completed) ;;;
  do t <- get ;;
  modify (set_rankings (calculateRankings env t)) ;;;
  do t <- get ;;
  liftR (saveTournament env t).

(** [for (const round of tournament.bracket.rounds)], from the round of
    index [ri], with [n] rounds left. *)
Fixpoint processTournamentRounds_from (env : TournamentEnv) (n ri : nat) : M Tournament unit :=
  match n with
  | O => ret tt
  | S n' =>
      do t <- get ;;
      onBracket (processRound (matchEnv env) (tournament_scenario t) ri) ;;;
      do t <- get ;;
      do round <- liftR (property_of (b ← bracket t; rounds b !! ri)) ;;
      if isFinal round then
        do complete <- liftR (round_isComplete env round) ;;
        if complete then completeTournament env
        else processTournamentRounds_from env n' (S ri)
      else processTournamentRounds_from env n' (S ri)
  end.

Definition processTournamentRounds (env : TournamentEnv) : M Tournament unit :=
  do t <- get ;;
  do b <- liftR (property_of (bracket t)) ;;
  processTournamentRounds_from env (length (rounds b)) 0.

(** [startTournament], on the tournament object found in the map. *)
Definition startTournament_on (env : TournamentEnv) : M Tournament Tournament :=
  fun t =>
    if negb (bool_decide (status t = Registration))
    then (Throw "Tournament cannot be started", t)
    else
      try_rethrow
        (do b <- liftR (generate (participants t) (tournament_type t)) ;;
         modify (set_bracket (Some b)) ;;;
         modify (set_status Running) ;;;
         do t' <- get ;;
         liftR (saveTournament env t') ;;;
         processTournamentRounds env ;;;
         get)
        (set_status Errored) t.

(** [this.tournamentTypes[type].minParticipants]. *)
Definition minParticipants (type : string) : option Z :=
  if bool_decide (type = "single-elimination") then Some 4
  else if bool_decide (type = "round-robin") then Some 3
  else if bool_decide (type = "gauntlet") then Some 1
  else if bool_decide (type = "team-battle") then Some 4
  else None.

Definition shouldAutoStart (t : Tournament) : result bool :=
  let? min := property_of (minParticipants (tournament_type t)) in
  Ok ((min <=? Z.of_nat (length (participants t)))
      && bool_decide (Some (Z.of_nat (length (participants t))) = maxParticipants t)).

(** [n >= limit], false when [limit] is [undefined]. *)
Definition at_least (n : Z) (limit : option Z) : bool :=
  match limit with
  | Some l => l <=? n
  | None => false
  end.

Definition registered (agentId : string) (p : Entrant) : bool :=
  bool_decide (agentId_of p = Some agentId).

(** [joinTournament], on the tournament object found in the map; [now] is
    the value of [new Date().toISOString()]. *)
Definition joinTournament_on (env : TournamentEnv) (agentId now : string)
  : M Tournament Entrant :=
  fun t =>
    if negb (bool_decide (status t = Registration))
    then (Throw "Tournament registration is closed", t)
    else if at_least (Z.of_nat (length (participants t))) (maxParticipants t)
    then (Throw "Tournament is full", t)
    else if existsb (registered agentId) (participants t)
    then (Throw "Agent already registered", t)
    else
      (do meets <- liftR (checkTournamentRequirements env t agentId) ;;
       if negb meets then throw "Agent does not meet tournament requirements"
       else
         let participant := Registered agentId now "registered" in
         modify (push_participant participant) ;;;
         do t' <- get ;;
         liftR (saveTournament env t') ;;;
         do t' <- get ;;
         do start <- liftR (shouldAutoStart t') ;;
         (if start then startTournament_on env ;;; ret tt else ret tt) ;;;
         ret participant) t.

(** The manager: [activeTournaments], a [Map] from tournament ids to
    tournament objects.  A method that changes the object it found changes
    the entry of the map. *)
Definition onTournament {A} (tournamentId : string) (c : M Tournament A)
  : M (gmap string Tournament) A :=
  fun active =>
    match active !! tournamentId with
    | Some tournament =>
        let '(r, tournament') := c tournament in
        (r, <[tournamentId := tournament']> active)
    | None => (Throw "Tournament not found", active)
    end.


Definition startTournament (env : TournamentEnv) (tournamentId : string)
  : M (gmap string Tournament) Tournament :=
  onTournament tournamentId (startTournament_on env).

(** ** Scenario execution *)

Record Decision := mkDecision { reasoning : string; action : option string }.

Record Environment := mkEnvironment {
  env_type : string;
  expectedFixes : option Z;
  testCases : option (list string)
}.

(** A scenario; a property the configuration leaves out is [None], and
    [timeLimit] counts seconds. *)
Record Scenario := mkScenario {
  scenario_id : string;
  objectives : option (list string);
  timeLimit : option Z;
  environment : option Environment;
  scoring : option (list (string * Q))
}.

(** The result objects of [applyDecision] and [evaluateDebugDecision]. *)
Inductive StepOutcome : Type :=
| Applied (impact : Q)
| FixAttempt (fixFound : bool) (testsPassed : Z).

Record Step := mkStep {
  step_number : Z;
  decision : option Decision;
  outcome : StepOutcome;
  step_fixesFound : option Z;
  timestamp : Z
}.

(** The places of a run where [Date.now()] is read. *)
Inductive ClockSite : Type :=
| AtStart
| AtTimeoutCheck (step : nat)
| AtStepPush (step : nat)
| AtEnd
| AtCatch
| AtErrorResult.

(** What a run reaches outside itself: the clock, the agent's decision
    function (by the number of the call; [Ok None] is a decision that is
    [null] or [undefined]), the draws of [Math.random] behind each step, and
    the score that [calculateScore] computes from random draws and the
    clock. *)
Record RunEnv := mkRunEnv {
  run_agentId : string;
  now : ClockSite -> Z;
  makeDecision : nat -> result (option Decision);
  random_impact : nat -> Q;
  random_fixFound : nat -> bool;
  random_testsPassed : nat -> Z;
  computeScore : list Step -> bool -> option Z
}.

(** The fields of a [ScenarioExecution] besides the scenario and the agent;
    [metrics_decisions] is the list kept by its [ExecutionMetrics]. *)
Record Execution := mkExecution {
  startTime : option Z;
  endTime : option Z;
  steps : list Step;
  exec_score : option Z;
  completed : bool;
  metrics_decisions : list (option Decision)
}.

(** The state the constructor leaves. *)
Definition newExecution : Execution :=
  {| startTime := None; endTime := None; steps := []; exec_score := Some 0;
     completed := false; metrics_decisions := [] |}.

Record ScenarioResult := mkScenarioResult {
  res_scenarioId : string;
  res_agentId : string;
  success : bool;
  res_error : option string;
  res_score : option Z;
  duration : Z;
  res_steps : nat
}.

Definition startTime_of (e : Execution) : Z := default 0 (startTime e).

Definition set_startTime (z : Z) (e : Execution) : Execution :=
  {| startTime := Some z; endTime := endTime e; steps := steps e;
     exec_score := exec_score e; completed := completed e;
     metrics_decisions := metrics_decisions e |}.

Definition set_endTime (z : Z) (e : Execution) : Execution :=
  {| startTime := startTime e; endTime := Some z; steps := steps e;
     exec_score := exec_score e; completed := completed e;
     metrics_decisions := metrics_decisions e |}.

Definition push_step (s : Step) (e : Execution) : Execution :=
  {| startTime := startTime e; endTime := endTime e; steps := (steps e ++ [s])%list;
     exec_score := exec_score e; completed := completed e;
     metrics_decisions := metrics_decisions e |}.

Definition recordStep (d : option Decision) (e : Execution) : Execution :=
  {| startTime := startTime e; endTime := endTime e; steps := steps e;
     exec_score := exec_score e; completed := completed e;
     metrics_decisions := (metrics_decisions e ++ [d])%list |}.

Definition set_completed (b : bool) (e : Execution) : Execution :=
  {| startTime := startTime e; endTime := endTime e; steps := steps e;
     exec_score := exec_score e; completed := b;
     metrics_decisions := metrics_decisions e |}.

Definition set_score (z : option Z) (e : Execution) : Execution :=
  {| startTime := startTime e; endTime := endTime e; steps := steps e;
     exec_score := z; completed := completed e;
     metrics_decisions := metrics_decisions e |}.

(** [isComplete]: [this.steps.length >= 5]. *)
Definition isComplete (e : Execution) : bool := 5 <=? Z.of_nat (length (steps e)).

(** [isTimedOut], checked before the step of number [step]; a time limit
    that is absent or zero is falsy and never times out. *)
Definition isTimedOut (env : RunEnv) (scenario : Scenario) (step : nat) (e : Execution) : bool :=
  match timeLimit scenario with
  | None => false
  | Some limit =>
      if bool_decide (limit = 0) then false
      else
        let elapsed := now env (AtTimeoutCheck step) - startTime_of e in
        limit * 1000 <? elapsed
  end.

(** [objectives.map(...)], [step.decision.action] of [generateReplay] and
    [decision.action] of [getDecisionTypes] throw on a missing value; so does
    [Object.entries(scoring)]. *)
Definition generateResults (env : RunEnv) (scenario : Scenario) : M Execution ScenarioResult :=
  do e <- get ;;
  let duration := default 0 (endTime e) - startTime_of e in
  do _ <- liftR (property_of (scoring scenario)) ;;
  modify (set_score (computeScore env (steps e) (completed e))) ;;;
  do e <- get ;;
  do _ <- liftR (property_of (objectives scenario)) ;;
  do _ <- liftR (property_of (mapM id (metrics_decisions e))) ;;
  do _ <- liftR (property_of (mapM decision (steps e))) ;;
  ret {| res_scenarioId := scenario_id scenario;
         res_agentId := run_agentId env;
         success := completed e;
         res_error := None;
         res_score := exec_score e;
         duration := duration;
         res_steps := length (steps e) |}.

Definition generateErrorResults (env : RunEnv) (scenario : Scenario) (msg : string)
    (e : Execution) : ScenarioResult :=
  {| res_scenarioId := scenario_id scenario;
     res_agentId := run_agentId env;
     success := false;
     res_error := Some msg;
     res_score := Some 0;
     duration := now env AtErrorResult - startTime_of e;
     res_steps := length (steps e) |}.

(** The loop of [runGenericScenario]:
    [while (step < maxSteps && !this.isComplete() && !this.isTimedOut())],
    by recursion on [remaining = maxSteps - step]. *)
Fixpoint genericLoop (env : RunEnv) (scenario : Scenario) (remaining step : nat)
  : M Execution unit :=
  match remaining with
  | O => ret tt
  | S remaining' =>
      do e <- get ;;
      if isComplete e then ret tt
      else if isTimedOut env scenario step e then ret tt
      else
        do decision <- liftR (makeDecision env step) ;;
        let result := Applied (random_impact env step) in
        modify (push_step {| step_number := Z.of_nat step + 1;
                             decision := decision;
                             outcome := result;
                             step_fixesFound := None;
                             timestamp := now env (AtStepPush step) - startTime_of e |}) ;;;
        modify (recordStep decision) ;;;
        genericLoop env scenario remaining' (S step)
  end.

Definition maxSteps : nat := 10.

Definition runGenericScenario (env : RunEnv) (scenario : Scenario) : M Execution ScenarioResult :=
  genericLoop env scenario maxSteps 0 ;;;
  modify (set_endTime (now env AtEnd)) ;;;
  generateResults env scenario.

(** [a < b] and [a >= b] on numbers, false when [b] is [undefined]. *)
Definition lt_num (a : Z) (b : option Z) : bool :=
  match b with Some b => a <? b | None => false end.
Definition ge_num (a : Z) (b : option Z) : bool :=
  match b with Some b => b <=? a | None => false end.

(** The loop of [runDebuggingScenario]:
    [while (step < 5 && fixesFound < expectedFixes && !this.isTimedOut())],
    by recursion on [remaining = 5 - step]; it returns [fixesFound]. *)
Fixpoint debuggingLoop (env : RunEnv) (scenario : Scenario) (environment : Environment)
    (remaining step : nat) (fixesFound : Z) : M Execution Z :=
  match remaining with
  | O => ret fixesFound
  | S remaining' =>
      do e <- get ;;
      if negb (lt_num fixesFound (expectedFixes environment)) then ret fixesFound
      else if isTimedOut env scenario step e then ret fixesFound
      else
        do decision <- liftR (makeDecision env step) ;;
        do _ <- liftR (property_of (testCases environment)) ;;
        let result := FixAttempt (random_fixFound env step) (random_testsPassed env step) in
        let fixesFound := if random_fixFound env step then fixesFound + 1 else fixesFound in
        modify (push_step {| step_number := Z.of_nat step + 1;
                             decision := decision;
                             outcome := result;
                             step_fixesFound := Some fixesFound;
                             timestamp := now env (AtStepPush step) - startTime_of e |}) ;;;
        debuggingLoop env scenario environment remaining' (S step) fixesFound
  end.

Definition runDebuggingScenario (env : RunEnv) (scenario : Scenario) (environment : Environment)
  : M Execution ScenarioResult :=
  do fixesFound <- debuggingLoop env scenario environment 5 0 0 ;;
  modify (set_completed (ge_num fixesFound (expectedFixes environment))) ;;;
  modify (set_endTime (now env AtEnd)) ;;;
  generateResults env scenario.

(** [run]: the [try] block with its [switch], and the [catch] that turns
    whatever was thrown into an error result. *)
Definition run (env : RunEnv) (scenario : Scenario) (e : Execution)
  : ScenarioResult * Execution :=
  let e := set_startTime (now env AtStart) e in
  let body : M Execution ScenarioResult :=
    do environment <- liftR (property_of (environment scenario)) ;;
    if bool_decide (env_type environment = "code_debugging")
    then runDebuggingScenario env scenario environment
    else runGenericScenario env scenario in
  match body e with
  | (Ok r, e') => (r, e')
  | (Throw msg, e') =>
      let e'' := set_endTime (now env AtCatch) e' in
      (generateErrorResults env scenario msg e'', e'')
  end.

(** * Vocabulary and inputs of the properties *)

(** ** Fusion rules *)

(** The compatibility table in the words of the specification. *)
Definition spec_compatibility_table : list (string * string) :=
  [ ("processing", "logic"); ("processing", "memory"); ("logic", "memory");
    ("logic", "synergy"); ("memory", "synergy"); ("processing", "synergy");
    ("synergy", "special") ].

(** The unordered pair of two categories is an entry of the table. *)
Definition spec_compatible (c1 c2 : string) : Prop :=
  exists p, In p spec_compatibility_table /\ ((c1, c2) = p \/ (c2, c1) = p).

Fixpoint no_hyphen (s : string) : bool :=
  match s with
  | EmptyString => true
  | String c s' => negb (Ascii.eqb c (Ascii.ascii_of_nat 45)) && no_hyphen s'
  end.

(** ** Fusion *)

(** One step up the scale common < rare < epic < legendary, in the words of
    the specification; legendary stays. *)
Definition spec_rarity_up (r : string) : string :=
  if bool_decide (r = "common") then "rare"
  else if bool_decide (r = "rare") then "epic"
  else if bool_decide (r = "epic") then "legendary"
  else r.

(** A collaborator call that returns on every storage state. *)
Definition never_throws {S A} (c : M S A) : Prop :=
  forall st, is_ok (c st).1 = true.

Definition reliable {S} (ops : ChipStorage S) : Prop :=
  never_throws (getUserProfile ops)
  /\ (forall chip, never_throws (saveSkillChip ops chip))
  /\ (forall p, never_throws (saveUserProfile ops p))
  /\ (forall id, never_throws (deleteSkillChip ops id)).

Definition returns {St A} (c : M St A) (s : St) : Prop :=
  exists r s', c s = (Ok r, s').

(** ** Rarity roll *)

(** The factors the context puts on the weight of rarity [r], in the words
    of the specification, in the order they are applied. *)
Definition spec_modifiers (context : RollContext) (r : string) : list Q :=
  ((if bool_decide (tournament_tier context = Some "legendary")
    then (if bool_decide (r = "legendary") then [5]
          else if bool_decide (r = "epic") then [2] else [])
    else if bool_decide (tournament_tier context = Some "epic")
    then (if bool_decide (r = "epic") then [3]
          else if bool_decide (r = "rare") then [15 # 10] else [])
    else [])
   ++ (if firstWin context
       then (if bool_decide (r = "rare") then [2]
             else if bool_decide (r = "epic") then [15 # 10] else [])
       else [])
   ++ (if perfectScore context
       then (if bool_decide (r = "legendary") then [10]
             else if bool_decide (r = "epic") then [3] else [])
       else []))%list%Q.

Definition spec_base_weight (r : string) : Q :=
  if bool_decide (r = "common") then 70 # 100
  else if bool_decide (r = "rare") then 25 # 100
  else if bool_decide (r = "epic") then 45 # 1000
  else 5 # 1000.

(** Base weight times the active modifiers. *)
Definition spec_weight {F} (A : Arith F) (context : RollContext) (r : string) : F :=
  foldl (fun w k => fmul A w (lit A k)) (lit A (spec_base_weight r)) (spec_modifiers context r).

Definition spec_total {F} (A : Arith F) (context : RollContext) : F :=
  fadd A (fadd A (fadd A (fadd A (lit A 0) (spec_weight A context "common"))
                         (spec_weight A context "rare"))
                 (spec_weight A context "epic"))
         (spec_weight A context "legendary").

(** The weight after renormalisation. *)
Definition spec_normalized {F} (A : Arith F) (context : RollContext) (r : string) : F :=
  fdiv A (spec_weight A context r) (spec_total A context).

(** The draw mapped through the cumulative thresholds, in the fixed order
    common, rare, epic, legendary, with common as the default. *)
Definition spec_rollRarity {F} (A : Arith F) (context : RollContext) (roll : F) : string :=
  let t1 := fadd A (lit A 0) (spec_normalized A context "common") in
  let t2 := fadd A t1 (spec_normalized A context "rare") in
  let t3 := fadd A t2 (spec_normalized A context "epic") in
  let t4 := fadd A t3 (spec_normalized A context "legendary") in
  if fle A roll t1 then "common"
  else if fle A roll t2 then "rare"
  else if fle A roll t3 then "epic"
  else if fle A roll t4 then "legendary"
  else "common".

(** ** Single-elimination brackets *)

Definition entrant (agentId : string) : Entrant :=
  Registered agentId "2025-01-01T00:00:00.000Z" "registered".

Definition four_participants : list Entrant :=
  [entrant "A"; entrant "B"; entrant "C"; entrant "D"].

(** ** Matches and rounds *)

(** Every agent record is found. *)
Definition all_agents (id : option string) : result (option Agent) :=
  match id with
  | Some a => Ok (Some {| agent_id := a |})
  | None => Ok None
  end.

(** The simulation in which A beats B and D beats C. *)
Definition a_and_d_win (agent1 agent2 : Agent) (scenario : string)
  : result SimulationResult :=
  let w :=
    if bool_decide (agent_id agent1 = "A") || bool_decide (agent_id agent2 = "A")
    then "A" else "D" in
  Ok {| sim_winner := Some w;
        sim_score := [(agent_id agent1, 50); (agent_id agent2, 50)];
        sim_metrics := (60, 50) |}.

Definition env_a_and_d_win : MatchEnv :=
  {| getAgent := all_agents;
     saveMatch := fun _ _ => Ok tt;
     simulateMatch := a_and_d_win |}.

Definition slots (b : Bracket) : list (list (option string * option string)) :=
  map (fun r => map (fun m => (p ← participant1 m; agentId_of p,
                               p ← participant2 m; agentId_of p)) (matches r))
      (rounds b).

Definition winners (b : Bracket) : list (list (option string)) :=
  map (fun r => map winner_of (matches r)) (rounds b).





(** ** The status of a tournament *)

(** The values [status] has taken, oldest first, the current one last. *)
Definition status_trace (t : Tournament) : list TournamentStatus :=
  (statusHistory t ++ [status t])%list.






(** The rounds the generator builds are plain objects without an
    [isComplete] method, so that the call made on a final round throws. *)
Definition plain_rounds (env : TournamentEnv) : Prop :=
  forall round, is_ok (round_isComplete env round) = false.

Definition env_quiet : TournamentEnv :=
  {| matchEnv := env_a_and_d_win;
     saveTournament := fun _ => Ok tt;
     checkTournamentRequirements := fun _ _ => Ok true;
     round_isComplete := fun _ => Throw "round.isComplete is not a function";
     calculateRankings := fun _ => [] |}.


(** ** Scenario runs *)

(** A planning scenario without a time limit, and an agent that answers. *)
Definition planning_scenario : Scenario :=
  {| scenario_id := "planning_basic";
     objectives := Some ["Create a plan"];
     timeLimit := None;
     environment :=
       Some {| env_type := "planning_simulation"; expectedFixes := None; testCases := None |};
     scoring := Some [("accuracy", 4 # 10); ("speed", 3 # 10); ("efficiency", 3 # 10)] |}.

Definition steady_clock (site : ClockSite) : Z := 1000.

Definition env_answering : RunEnv :=
  {| run_agentId := "agent_1";
     now := steady_clock;
     makeDecision := fun _ => Ok (Some {| reasoning := "next"; action := Some "plan" |});
     random_impact := fun _ => 5 # 1;
     random_fixFound := fun _ => true;
     random_testsPassed := fun _ => 1;
     computeScore := fun _ _ => Some 50 |}.





(** ** Fusion on a small collection *)

Definition epic_logic : SkillChip :=
  {| chip_id := "chip_a"; chip_type := "pattern_detector"; chip_name := "Pattern Detector";
     chip_description := "Enhances pattern recognition by 35%";
     category := "logic"; rarity := "epic";
     effects := [ {| eff_name := "Pattern Recognition"; eff_value := 35 |} ];
     acquired := "2025-01-01T00:00:00.000Z"; fused := false; fusedFrom := None;
     userId := None |}.

Definition epic_memory : SkillChip :=
  {| chip_id := "chip_b"; chip_type := "memory_bank"; chip_name := "Memory Bank";
     chip_description := "Increases memory capacity by 50%";
     category := "memory"; rarity := "epic";
     effects := [ {| eff_name := "Memory"; eff_value := 50 |} ];
     acquired := "2025-01-01T00:00:00.000Z"; fused := false; fusedFrom := None;
     userId := None |}.

Definition rare_special : SkillChip :=
  {| chip_id := "chip_c"; chip_type := "quantum_processor"; chip_name := "Quantum Processor";
     chip_description := "Enables quantum-enhanced processing";
     category := "special"; rarity := "rare";
     effects := [ {| eff_name := "Speed"; eff_value := 50 |};
                  {| eff_name := "Logic"; eff_value := 30 |} ];
     acquired := "2025-01-01T00:00:00.000Z"; fused := false; fusedFrom := None;
     userId := None |}.

(** A storage without state whose calls all succeed, with no user profile. *)
Definition quiet_storage : ChipStorage unit :=
  {| getUserProfile := ret None;
     saveSkillChip := fun _ => ret tt;
     saveUserProfile := fun _ => ret tt;
     deleteSkillChip := fun _ => ret tt |}.

Definition three_chips : ChipSystem unit :=
  mkChipSystem
    (<["chip_a" := epic_logic]> (<["chip_b" := epic_memory]> (<["chip_c" := rare_special]> ∅)))
    (initializeFusionRules ∅) tt.

(** ** Winner advancement into an existing next round *)


(** ** Evaluations on small inputs *)

Definition no_context : RollContext :=
  {| tournament_tier := None; firstWin := false; perfectScore := false |}.

Definition legendary_perfect : RollContext :=
  {| tournament_tier := Some "legendary"; firstWin := false; perfectScore := true |}.

(** * Further code of the same modules *)

(** ** Fusion: storage failures *)

(** A storage whose [deleteSkillChip] throws and whose other calls succeed. *)
Definition storage_delete_fails : ChipStorage unit :=
  {| getUserProfile := ret None;
     saveSkillChip := fun _ => ret tt;
     saveUserProfile := fun _ => ret tt;
     deleteSkillChip := fun _ => throw "Transaction failed" |}.

(** ** ChipDatabase: chip types and creation *)

Record ChipType := mkChipType {
  type_id : string;
  type_category : string;
  type_name : string;
  type_description : string;
  type_effects : list Effect
}.

(** [chipTypes.set(id, { id, category, ...config })] on a [Map], kept as
    the list of its values in insertion order: an existing key keeps its
    place, a new one goes to the end. *)
Fixpoint addChipType (t : ChipType) (chipTypes : list ChipType) : list ChipType :=
  match chipTypes with
  | [] => [t]
  | t' :: rest =>
      if bool_decide (type_id t' = type_id t) then t :: rest
      else t' :: addChipType t rest
  end.

Definition initializeChipTypes (chipTypes : list ChipType) : list ChipType :=
  foldl (fun acc t => addChipType t acc) chipTypes
    [ mkChipType "speed_boost" "processing" "Speed Boost"
        "Increases processing speed by 25%" [mkEffect "Speed" 25];
      mkChipType "efficiency_core" "processing" "Efficiency Core"
        "Reduces resource consumption by 20%" [mkEffect "Efficiency" 20];
      mkChipType "reasoning_matrix" "logic" "Reasoning Matrix"
        "Improves logical reasoning by 30%" [mkEffect "Logic" 30];
      mkChipType "pattern_detector" "logic" "Pattern Detector"
        "Enhances pattern recognition by 35%" [mkEffect "Pattern Recognition" 35];
      mkChipType "memory_bank" "memory" "Memory Bank"
        "Increases memory capacity by 50%" [mkEffect "Memory" 50];
      mkChipType "recall_enhancer" "memory" "Recall Enhancer"
        "Improves information recall by 40%" [mkEffect "Recall" 40];
      mkChipType "team_coordinator" "synergy" "Team Coordinator"
        "Enhances team coordination by 45%" [mkEffect "Coordination" 45];
      mkChipType "communication_hub" "synergy" "Communication Hub"
        "Improves inter-agent communication by 35%" [mkEffect "Communication" 35];
      mkChipType "quantum_processor" "special" "Quantum Processor"
        "Enables quantum-enhanced processing"
        [mkEffect "Speed" 50; mkEffect "Logic" 30] ].

(** [chipTypes.get(typeId)]; the id is [None] when it is [undefined]. *)
Definition getChipType (chipTypes : list ChipType) (typeId : option string)
  : option ChipType :=
  match typeId with
  | Some id => find (fun t => bool_decide (type_id t = id)) chipTypes
  | None => None
  end.

(** [getTypesByCategory(category, rarity)]; the rarity is not used by the
    source, and no type has the category [undefined]. *)
Definition getTypesByCategory (chipTypes : list ChipType) (category : option string)
  : list string :=
  map type_id (filter (fun t => Some (type_category t) = category) chipTypes).

(** A chip object with the properties written outside [createFusion]: the
    [unique] flag of [create] ([None] when the property is absent) and the
    two bonuses, each with the id it names and its amount. *)
Record ChipObject := mkChipObject {
  chip : SkillChip;
  unique : option bool;
  tournamentBonus : option (option string * Z);
  achievementBonus : option (option string * Z)
}.


(** The string a template literal prints for a value that may be
    [undefined]. *)
Definition show (s : option string) : string := default "undefined" s.

(** [create(typeId, rarity, options)], with the [fused] and [unique] flags
    the options give ([false] when they give none). *)
Definition create (chipTypes : list ChipType) (newId now : string)
    (typeId : option string) (rarity : string) (opt_fused opt_unique : bool)
  : result ChipObject :=
  match getChipType chipTypes typeId with
  | None => Throw ("Unknown chip type: " +:+ show typeId)
  | Some chipType =>
      Ok {| chip :=
              {| chip_id := newId;
                 chip_type := show typeId;
                 chip_name := type_name chipType;
                 chip_description := type_description chipType;
                 category := type_category chipType;
                 rarity := rarity;
                 effects := type_effects chipType;
                 acquired := now;
                 fused := opt_fused;
                 fusedFrom := None;
                 userId := None |};
            unique := Some opt_unique;
            tournamentBonus := None;
            achievementBonus := None |}
  end.

(** [generateRewardChip(rewardConfig)]. *)
Definition generateRewardChip (chipTypes : list ChipType) (newId now : string)
    (reward_category reward_rarity : string) (reward_unique : bool) : result ChipObject :=
  create chipTypes newId now (Some (reward_category +:+ "_reward")) reward_rarity
    false reward_unique.

(** *** SkillChip methods *)

(** [addTournamentBonus(tournament)], the tournament given by its id and
    tier. *)
Definition addTournamentBonus (tournament_id tier : option string) (c : ChipObject)
  : ChipObject :=
  {| chip := chip c; unique := unique c;
     tournamentBonus :=
       Some (tournament_id, if bool_decide (tier = Some "legendary") then 50 else 25);
     achievementBonus := achievementBonus c |}.

Definition addAchievementBonus (achievement_id : option string) (c : ChipObject)
  : ChipObject :=
  {| chip := chip c; unique := unique c;
     tournamentBonus := tournamentBonus c;
     achievementBonus := Some (achievement_id, 20) |}.


(** *** Random chips *)

(** The names every object inherits from [Object.prototype]: looked up in an
    object literal they give a function or an object, not [undefined]. *)
Definition inherited_property (k : string) : bool :=
  bool_decide (In k [ "constructor"; "__proto__"; "hasOwnProperty"; "isPrototypeOf";
                      "propertyIsEnumerable"; "toLocaleString"; "toString"; "valueOf";
                      "__defineGetter__"; "__defineSetter__"; "__lookupGetter__";
                      "__lookupSetter__" ]).

(** The [context] of [generateRandomChip]: the tournament object, if any,
    with its id and tier; the two flags; the category of the scenario object,
    if any; the id of the achievement object, if any. *)
Record ChipContext := mkChipContext {
  ctx_tournament : option (option string * option string);
  ctx_firstWin : bool;
  ctx_perfectScore : bool;
  ctx_scenario : option (option string);
  ctx_achievement : option (option string)
}.

(** What [rollRarity] reads of that context. *)
Definition rollContext (context : ChipContext) : RollContext :=
  {| tournament_tier := match ctx_tournament context with
                        | Some (_, tier) => tier
                        | None => None
                        end;
     firstWin := ctx_firstWin context;
     perfectScore := ctx_perfectScore context |}.

(** The draws of [Math.random] behind one chip: the roll of the rarity, the
    result of [Math.random() < 0.5], and the values of
    [Math.floor(Math.random() * n)] for the category and for the chip
    type, as functions of [n]. *)
Record Dice (F : Type) := mkDice {
  rarity_roll : F;
  coin : bool;
  category_index : nat -> nat;
  type_index : nat -> nat
}.
Arguments rarity_roll {F} _.
Arguments coin {F} _.
Arguments category_index {F} _ _.
Arguments type_index {F} _ _.

Definition categories : list string :=
  ["processing"; "logic"; "memory"; "synergy"; "special"].

(** [scenarioCategories[key]]: the list of an own key, [Some []] standing
    for the function or object an inherited name gives (indexing it gives
    [undefined]), [None] for [undefined]. *)
Definition scenarioCategories (key : option string) : option (list string) :=
  match key with
  | Some k =>
      if bool_decide (k = "debug") then Some ["logic"; "processing"]
      else if bool_decide (k = "planning") then Some ["logic"; "memory"]
      else if bool_decide (k = "analysis") then Some ["processing"; "logic"]
      else if bool_decide (k = "creative") then Some ["synergy"; "special"]
      else if inherited_property k then Some []
      else None
  | None => None
  end.

(** [selectCategory(rarity, context)]; [None] is [undefined]. *)
Definition selectCategory {F} (dice : Dice F) (rarity : string) (context : ChipContext)
  : option string :=
  match (scenario ← ctx_scenario context; scenarioCategories scenario) with
  | Some preferredCategories =>
      preferredCategories !! category_index dice (length preferredCategories)
  | None =>
      if bool_decide (rarity = "legendary")
      then Some (if coin dice then "special" else "synergy")
      else categories !! category_index dice (length categories)
  end.

Definition selectChipType {F} (chipTypes : list ChipType) (dice : Dice F)
    (category : option string) : option string :=
  let types := getTypesByCategory chipTypes category in
  types !! type_index dice (length types).

Definition generateRandomChip {F} (A : Arith F) (chipTypes : list ChipType)
    (dice : Dice F) (newId now : string) (context : ChipContext) : result ChipObject :=
  let rarity := rollRarity A (rollContext context) (rarity_roll dice) in
  let category := selectCategory dice rarity context in
  let chipType := selectChipType chipTypes dice category in
  let? chip := create chipTypes newId now chipType rarity false false in
  let chip :=
    match ctx_tournament context with
    | Some (id, tier) => addTournamentBonus id tier chip
    | None => chip
    end in
  let chip :=
    match ctx_achievement context with
    | Some id => addAchievementBonus id chip
    | None => chip
    end in
  Ok chip.

(** *** Counting the collection *)

(** The object [{ k1: 0, k2: 0, ... }]. *)
Definition zeroCounts (keys : list string) : list (string * Z) :=
  map (fun k => (k, 0)) keys.

(** [if (counts.hasOwnProperty(key)) counts[key]++]. *)
Definition countKey (counts : list (string * Z)) (key : string) : list (string * Z) :=
  map (fun e => if bool_decide (e.1 = key) then (e.1, e.2 + 1) else e) counts.

(** [getCountsByRarity], on the array of the chips of the collection. *)
Definition getCountsByRarity (chips : list SkillChip) : list (string * Z) :=
  foldl (fun counts chip => countKey counts (rarity chip))
        (zeroCounts ["common"; "rare"; "epic"; "legendary"]) chips.

Definition getCountsByCategory (chips : list SkillChip) : list (string * Z) :=
  foldl (fun counts chip => countKey counts (category chip))
        (zeroCounts ["processing"; "logic"; "memory"; "synergy"; "special"]) chips.

(** [rarityValues[rarity] || 0]; [None] when the name is inherited and the
    value is not a number. *)
Definition rarityValue (rarity : string) : option Z :=
  if bool_decide (rarity = "common") then Some 1
  else if bool_decide (rarity = "rare") then Some 5
  else if bool_decide (rarity = "epic") then Some 25
  else if bool_decide (rarity = "legendary") then Some 100
  else if inherited_property rarity then None
  else Some 0.

(** [getCollectionValue], on the array of the chips of the collection;
    [None] when the sum is not a number. *)
Definition getCollectionValue (chips : list SkillChip) : option Z :=
  foldl (fun total chip => t ← total; v ← rarityValue (rarity chip); Some (t + v))
        (Some 0) chips.

(** *** Importing chips *)

(** The loop of [importCollection] over [data.chips]: a chip whose
    [addChipToCollection] throws is skipped; the result is the pair
    [(imported, total)]. *)
Fixpoint importLoop {St} (ops : ChipStorage St) (chips : list SkillChip) (imported : nat)
    (sys : ChipSystem St) : nat * ChipSystem St :=
  match chips with
  | [] => (imported, sys)
  | chipData :: rest =>
      match addChipToCollection ops chipData sys with
      | (Ok _, sys') => importLoop ops rest (S imported) sys'
      | (Throw _, sys') => importLoop ops rest imported sys'
      end
  end.

Definition importChips {S} (ops : ChipStorage S) (chips : list SkillChip)
    (sys : ChipSystem S) : (nat * nat) * ChipSystem S :=
  let '(imported, sys') := importLoop ops chips 0 sys in
  ((imported, length chips), sys').

(** All the strings a string ends with. *)
Fixpoint suffixes (s : string) : list string :=
  match s with
  | EmptyString => [EmptyString]
  | String c s' => s :: suffixes s'
  end.

(** The random indices are within range, as [Math.floor(Math.random() * n)]
    is for [Math.random()] in [[0, 1)]. *)
Definition in_range (index : nat -> nat) : Prop :=
  forall n, (0 < n)%nat -> (index n < n)%nat.

Definition sum_counts (counts : list (string * Z)) : Z :=
  foldr (fun e acc => e.2 + acc) 0 counts.

Definition count_by (proj : SkillChip -> string) (k : string) (chips : list SkillChip) : Z :=
  Z.of_nat (length (filter (fun c => proj c = k) chips)).

Definition fair_dice : Dice Q :=
  {| rarity_roll := 96 # 100; coin := true;
     category_index := fun n => 0%nat; type_index := fun n => (n - 1)%nat |}.

Definition debug_tournament_context : ChipContext :=
  {| ctx_tournament := Some (Some "tournament_1", Some "legendary");
     ctx_firstWin := false; ctx_perfectScore := true;
     ctx_scenario := Some (Some "debug"); ctx_achievement := None |}.

(** A storage whose [saveSkillChip] throws, with a user profile. *)
Definition storage_save_fails : ChipStorage unit :=
  {| getUserProfile := ret (Some {| profile_id := "user_1"; skillChipsCollected := 0 |});
     saveSkillChip := fun _ => throw "Quota exceeded";
     saveUserProfile := fun _ => ret tt;
     deleteSkillChip := fun _ => ret tt |}.

Definition empty_system : ChipSystem unit :=
  mkChipSystem ∅ (initializeFusionRules ∅) tt.

(** ** Brackets: vocabulary *)

(** All pairs of a list, each element with the ones after it. *)
Fixpoint all_pairs {A} (l : list A) : list (A * A) :=
  match l with
  | [] => []
  | x :: rest => (map (pair x) rest ++ all_pairs rest)%list
  end.

(** The two participant slots of a match. *)
Definition pairing (m : Match) : option Entrant * option Entrant :=
  (participant1 m, participant2 m).

(** The matches are numbered from one in the order of the list, after the
    given prefix. *)
Definition numbered (prefix : string) (ms : list Match) : Prop :=
  forall i m, ms !! i = Some m -> match_id m = prefix +:+ pretty (Z.of_nat i + 1).






(** ** Tournaments: vocabulary and inputs *)

(** What a tournament is registered with: the fields that only
    [joinTournament] may change. *)
Definition roster (t : Tournament)
  : string * string * string * option Z * list Entrant :=
  (tournament_id t, tournament_type t, tournament_scenario t, maxParticipants t,
   participants t).

(** A single-elimination tournament, open for registration, with two of
    its eight places taken. *)
Definition open_tournament : Tournament :=
  {| tournament_id := "tournament_2";
     tournament_type := "single-elimination";
     tournament_scenario := "debug_basic";
     maxParticipants := Some 8;
     participants := [entrant "A"; entrant "B"];
     bracket := None;
     status := Registration;
     rankings := [];
     statusHistory := [] |}.

(** A round-robin tournament of three, open for registration. *)
Definition round_robin_of_three : Tournament :=
  {| tournament_id := "tournament_3";
     tournament_type := "round-robin";
     tournament_scenario := "debug_basic";
     maxParticipants := Some 8;
     participants := [entrant "A"; entrant "B"; entrant "C"];
     bracket := None;
     status := Registration;
     rankings := [];
     statusHistory := [] |}.

(** The storage refuses to save tournaments. *)
Definition env_save_fails : TournamentEnv :=
  {| matchEnv := env_a_and_d_win;
     saveTournament := fun _ => Throw "QuotaExceededError";
     checkTournamentRequirements := fun _ _ => Ok true;
     round_isComplete := fun _ => Throw "round.isComplete is not a function";
     calculateRankings := fun _ => [] |}.

(** ** Scenario runs: vocabulary and inputs *)

(** The recorded step holds the number and the agent's answer of the call
    of index [i]. *)
Definition step_answers (env : RunEnv) (i : nat) (s : Step) : Prop :=
  step_number s = Z.of_nat i + 1 /\ makeDecision env i = Ok (decision s).

(** How many of the draws behind the steps [from], ..., [from + count - 1]
    find a fix. *)
Definition fixes_drawn (env : RunEnv) (from count : nat) : Z :=
  Z.of_nat (length (List.filter (random_fixFound env) (seq from count))).

(** A debugging scenario that expects two fixes, without a time limit. *)
Definition two_bugs : Scenario :=
  {| scenario_id := "debug_basic";
     objectives := Some ["Find the errors"];
     timeLimit := None;
     environment :=
       Some {| env_type := "code_debugging"; expectedFixes := Some 2;
               testCases := Some ["test_1"; "test_2"] |};
     scoring := Some [("accuracy", 4 # 10); ("speed", 3 # 10); ("efficiency", 3 # 10)] |}.


(** * Properties *)

(** ** The monad *)

Lemma bind_Ok {St A B} (c : M St A) (k : A -> M St B) s b s' :
  bind c k s = (Ok b, s') ->
  exists a s1, c s = (Ok a, s1) /\ k a s1 = (Ok b, s').
Proof.
  unfold bind. destruct (c s) as [[a|msg] s1]; intros H.
  - exists a, s1. auto.
  - discriminate.
Qed.

Lemma bind_Throw {St A B} (c : M St A) (k : A -> M St B) s msg s' :
  bind c k s = (Throw msg, s') ->
  c s = (Throw msg, s') \/ exists a s1, c s = (Ok a, s1) /\ k a s1 = (Throw msg, s').
Proof.
  unfold bind. destruct (c s) as [[a|msg0] s1]; intros H.
  - right. exists a, s1. auto.
  - left. injection H as -> ->. reflexivity.
Qed.

(** ** Fusion rules *)

Lemma append_nil (b : string) : "" +:+ b = b.
Proof. reflexivity. Qed.

Lemma append_cons c (a b : string) : String c a +:+ b = String c (a +:+ b).
Proof. reflexivity. Qed.

Ltac string_norm :=
  unfold ruleKeyOf in *; rewrite ?append_cons, ?append_nil in *.

Lemma ruleKeyOf_has_hyphen a b : no_hyphen (ruleKeyOf a b) = false.
Proof.
  induction a as [|c a IH]; string_norm.
  - reflexivity.
  - simpl. rewrite IH. apply andb_false_r.
Qed.

(** A key determines the two categories it was built from, as long as the
    categories contain no hyphen. *)
Lemma ruleKeyOf_inj x y a b :
  no_hyphen x = true -> no_hyphen y = true ->
  ruleKeyOf a b = ruleKeyOf x y -> a = x /\ b = y.
Proof.
  revert a. induction x as [|c x IH]; intros [|c' a] Hx Hy Heq.
  - string_norm. injection Heq as ->. auto.
  - exfalso. pose proof (ruleKeyOf_has_hyphen a b) as Hh.
    string_norm. injection Heq as Hc Hrest.
    rewrite Hrest in Hh. congruence.
  - exfalso. string_norm. injection Heq as Hc Hrest.
    simpl in Hx. rewrite <- Hc in Hx. simpl in Hx. discriminate.
  - assert (ruleKeyOf a b = ruleKeyOf x y) as Hrest.
    { string_norm. injection Heq as Hc Hrest. exact Hrest. }
    assert (c' = c) as -> by (string_norm; injection Heq as Hc _; exact Hc).
    simpl in Hx. apply andb_prop in Hx as [_ Hx].
    destruct (IH a Hx Hy Hrest) as [-> ->]. auto.
Qed.

Lemma has_insert {V} (m : gmap string V) k k' v :
  has (<[k' := v]> m) k = true <-> k = k' \/ has m k = true.
Proof.
  unfold has. destruct (decide (k' = k)) as [->|Hne].
  - rewrite lookup_insert_eq. tauto.
  - rewrite lookup_insert_ne by done. split; [tauto|].
    intros [->|H]; [done | exact H].
Qed.

Lemma has_foldl_rules (l : list (string * string)) (m : gmap string bool) k :
  has (foldl (fun acc '(cat1, cat2) =>
                <[ruleKeyOf cat2 cat1 := true]> (<[ruleKeyOf cat1 cat2 := true]> acc)) m l) k
    = true
  <-> has m k = true \/
      exists c1 c2, In (c1, c2) l /\ (k = ruleKeyOf c1 c2 \/ k = ruleKeyOf c2 c1).
Proof.
  revert m. induction l as [|[c1 c2] l IH]; intros m; simpl.
  - split; [auto | intros [H|(?&?&[]&_)]; exact H].
  - rewrite IH, !has_insert. split.
    + intros [[H|[H|H]]|(x&y&Hin&H)].
      * right. exists c1, c2. auto.
      * right. exists c1, c2. auto.
      * auto.
      * right. exists x, y. auto.
    + intros [H|(x&y&[Heq|Hin]&H)].
      * auto.
      * injection Heq as <- <-. destruct H; auto.
      * right. exists x, y. auto.
Qed.

Lemma has_fusionRules k :
  has (initializeFusionRules ∅) k = true
  <-> exists c1 c2, In (c1, c2) rules /\ (k = ruleKeyOf c1 c2 \/ k = ruleKeyOf c2 c1).
Proof.
  unfold initializeFusionRules. rewrite has_foldl_rules.
  unfold has at 1. rewrite lookup_empty. split; [intros [?|?]; [discriminate|done] | auto].
Qed.

(** Calling [initializeFusionRules] again, as [initialize] does, changes nothing. *)
Lemma initializeFusionRules_again k :
  has (initializeFusionRules (initializeFusionRules ∅)) k = has (initializeFusionRules ∅) k.
Proof.
  apply eq_true_iff_eq. unfold initializeFusionRules at 1.
  rewrite has_foldl_rules, has_fusionRules. tauto.
Qed.

Lemma rules_no_hyphen c1 c2 :
  In (c1, c2) rules -> no_hyphen c1 = true /\ no_hyphen c2 = true.
Proof.
  unfold rules. simpl. intros H.
  repeat (destruct H as [H|H]; [injection H as <- <-; split; reflexivity|]).
  destruct H.
Qed.

Lemma has_fusionRules_key a b :
  has (initializeFusionRules ∅) (ruleKeyOf a b) = true
  <-> In (a, b) rules \/ In (b, a) rules.
Proof.
  rewrite has_fusionRules. split.
  - intros (c1 & c2 & Hin & [H|H]).
    + destruct (rules_no_hyphen _ _ Hin) as [H1 H2].
      destruct (ruleKeyOf_inj _ _ _ _ H1 H2 H) as [-> ->]. auto.
    + destruct (rules_no_hyphen _ _ Hin) as [H1 H2].
      destruct (ruleKeyOf_inj _ _ _ _ H2 H1 H) as [-> ->]. auto.
  - intros [H|H]; [exists a, b | exists b, a]; auto.
Qed.

Lemma canFuse_true a b :
  canFuse (initializeFusionRules ∅) a b = true
  <-> rarity a = rarity b /\ spec_compatible (category a) (category b).
Proof.
  unfold canFuse, spec_compatible. change spec_compatibility_table with rules.
  destruct (bool_decide_reflect (rarity a = rarity b)) as [Hr|Hr]; simpl.
  - rewrite orb_true_iff, !has_fusionRules_key. split.
    + intros H. split; [exact Hr|].
      destruct H as [[H|H]|[H|H]].
      * exists (category a, category b). auto.
      * exists (category b, category a). auto.
      * exists (category b, category a). auto.
      * exists (category a, category b). auto.
    + intros [_ (p & Hin & [<-|<-])]; auto.
  - split; [discriminate | tauto].
Qed.

(** C4.  [canFuse] answers [true] exactly when the two rarities are equal and
    the unordered pair of the categories is one of the seven entries of the
    compatibility table; a pair of chips of different rarity is refused
    whatever the categories are.  The categories and rarities range over all
    strings. *)
Theorem canFuse_spec (a b : SkillChip) :
  (canFuse (initializeFusionRules ∅) a b = true
   <-> rarity a = rarity b /\ spec_compatible (category a) (category b))
  /\ (rarity a <> rarity b -> canFuse (initializeFusionRules ∅) a b = false).
Proof.
  split.
  - apply canFuse_true.
  - intros Hne. destruct (canFuse _ a b) eqn:E; [|reflexivity].
    apply canFuse_true in E as [E _]. contradiction.
Qed.

(** ** Fusion *)

(** The index [createFusion] reads in [rarityOrder] is always within range. *)
Lemma createFusion_index_in_range (r : string) :
  indexOf rarityOrder r < Z.of_nat (length rarityOrder) - 1 ->
  0 <= indexOf rarityOrder r + 1 < Z.of_nat (length rarityOrder).
Proof.
  unfold indexOf, rarityOrder. simpl. repeat case_bool_decide; lia.
Qed.

Lemma createFusion_fields newId now a b :
  effects (createFusion newId now a b) = (effects a ++ effects b)%list
  /\ category (createFusion newId now a b) = "synergy".
Proof. split; reflexivity. Qed.

Lemma createFusion_rarity newId now a b :
  In (rarity a) rarityOrder ->
  rarity (createFusion newId now a b) = spec_rarity_up (rarity a).
Proof.
  unfold createFusion, rarityOrder. simpl.
  intros [H|[H|[H|[H|[]]]]]; rewrite <- H; reflexivity.
Qed.

(** A first chip whose rarity is not on the scale gives a common chip:
    [indexOf] answers [-1] and the entry read is the first of the scale. *)
Lemma createFusion_off_scale newId now a b :
  ~ In (rarity a) rarityOrder ->
  rarity (createFusion newId now a b) = "common".
Proof.
  intros Hout. unfold createFusion, indexOf, rarityOrder in *. cbn [rarity indexOf_from].
  repeat case_bool_decide; try reflexivity; exfalso; apply Hout; simpl; auto.
Qed.

(** The chip [addChipToCollection] returns is the chip it was given, up to
    its [userId]. *)
Lemma addChipToCollection_Ok {S} (ops : ChipStorage S) chip sys r sys' :
  addChipToCollection ops chip sys = (Ok r, sys') ->
  effects r = effects chip /\ rarity r = rarity chip /\ category r = category chip.
Proof.
  unfold addChipToCollection. intros H.
  apply bind_Ok in H as (_ & s1 & _ & H).
  apply bind_Ok in H as ([p|] & s2 & _ & H).
  - apply bind_Ok in H as (_ & s3 & _ & H).
    apply bind_Ok in H as (_ & s4 & _ & H).
    apply bind_Ok in H as (_ & s5 & _ & H).
    injection H as <- _. auto.
  - injection H as <- _. auto.
Qed.

Lemma returns_onStorage {S A B} (c : M S A) (k : A -> M (ChipSystem S) B) sys :
  never_throws c ->
  (forall a sys1, returns (k a) sys1) ->
  returns (bind (onStorage c) k) sys.
Proof.
  intros Hc Hk. unfold returns, bind, onStorage. specialize (Hc (storage sys)).
  destruct (c (storage sys)) as [[a|msg] st']; [|discriminate].
  apply Hk.
Qed.

Lemma returns_modify {St B} (f : St -> St) (k : unit -> M St B) s :
  returns (k tt) (f s) -> returns (bind (modify f) k) s.
Proof. intros H. exact H. Qed.

Lemma returns_ret {St A} (a : A) (s : St) : returns (ret a) s.
Proof. eexists _, _. reflexivity. Qed.

Lemma addChipToCollection_returns {S} (ops : ChipStorage S) chip sys :
  reliable ops -> returns (addChipToCollection ops chip) sys.
Proof.
  intros (Hget & Hsave & Hprof & _). unfold addChipToCollection, collection_set.
  apply returns_modify. apply returns_onStorage; [exact Hget|].
  intros [p|] sys1; [|apply returns_ret].
  apply returns_modify.
  apply returns_onStorage; [apply Hsave|]. intros _ sys2.
  apply returns_onStorage; [apply Hprof|]. intros _ sys3.
  apply returns_ret.
Qed.

(** C3.  For two chips of the collection with equal rarity (a rarity of the
    scale) and compatible categories, the fused chip has the effects of the
    first followed by those of the second, the rarity one step up (legendary
    stays legendary) and the category synergy.  This holds of the chip
    [createFusion] builds and of every chip [fuseChips] returns, and
    [fuseChips] does return one when the storage calls succeed. *)
Theorem fuseChips_result {S} (ops : ChipStorage S) (newId now id1 id2 : string)
    (sys : ChipSystem S) (a b : SkillChip) :
  fusionRules sys = initializeFusionRules ∅ ->
  userCollection sys !! id1 = Some a ->
  userCollection sys !! id2 = Some b ->
  rarity a = rarity b ->
  spec_compatible (category a) (category b) ->
  In (rarity a) rarityOrder ->
  let good (r : SkillChip) :=
    effects r = (effects a ++ effects b)%list
    /\ length (effects r) = (length (effects a) + length (effects b))%nat
    /\ rarity r = spec_rarity_up (rarity a)
    /\ category r = "synergy" in
  good (createFusion newId now a b)
  /\ (forall r sys', fuseChips ops newId now id1 id2 sys = (Ok r, sys') -> good r)
  /\ (reliable ops -> returns (fuseChips ops newId now id1 id2) sys).
Proof.
  intros Hrules H1 H2 Hrar Hcat Hscale good.
  assert (canFuse (fusionRules sys) a b = true) as Hcan.
  { rewrite Hrules. apply canFuse_true. auto. }
  assert (good (createFusion newId now a b)) as Hgood.
  { unfold good. rewrite createFusion_rarity by exact Hscale.
    destruct (createFusion_fields newId now a b) as [-> ->].
    rewrite length_app. auto. }
  split; [exact Hgood|]. split.
  - intros r sys'. unfold fuseChips. rewrite H1, H2, Hcan. simpl. intros H.
    do 4 (apply bind_Ok in H as (_ & ? & _ & H)).
    apply addChipToCollection_Ok in H as (He & Hr & Hc).
    destruct Hgood as (Ge & Gl & Gr & Gc).
    unfold good. rewrite He, Hr, Hc. auto.
  - intros Hrel. unfold returns, fuseChips. rewrite H1, H2, Hcan. simpl.
    unfold collection_delete.
    apply returns_modify. apply returns_modify.
    apply returns_onStorage; [apply Hrel|]. intros _ sys1.
    apply returns_onStorage; [apply Hrel|]. intros _ sys2.
    apply addChipToCollection_returns. exact Hrel.
Qed.

(** C5.  A fuse attempt that names a chip missing from the collection, or two
    chips that [canFuse] refuses, throws and leaves the system as it was: the
    collection and the storage are the ones before the call. *)
Theorem fuseChips_refused {S} (ops : ChipStorage S) (newId now id1 id2 : string)
    (sys : ChipSystem S) :
  userCollection sys !! id1 = None
  \/ userCollection sys !! id2 = None
  \/ (exists a b, userCollection sys !! id1 = Some a
                  /\ userCollection sys !! id2 = Some b
                  /\ canFuse (fusionRules sys) a b = false) ->
  exists msg, fuseChips ops newId now id1 id2 sys = (Throw msg, sys).
Proof.
  unfold fuseChips. intros [H|[H|(a & b & H1 & H2 & Hcan)]].
  - rewrite H. eexists. reflexivity.
  - rewrite H. destruct (userCollection sys !! id1); eexists; reflexivity.
  - rewrite H1, H2, Hcan. eexists. reflexivity.
Qed.

(** ** Rarity roll *)

Ltac context_cases c :=
  destruct c as [tier fw ps]; cbn [tournament_tier firstWin perfectScore];
  destruct (bool_decide (tier = Some "legendary"));
  destruct (bool_decide (tier = Some "epic"));
  destruct fw; destruct ps.

Lemma rollRarity_refines {F} (A : Arith F) (ctx : RollContext) (roll : F) :
  rollRarity A ctx roll = spec_rollRarity A ctx roll.
Proof.
  unfold rollRarity, spec_rollRarity, spec_normalized, spec_total, spec_weight,
    spec_modifiers, applyModifiers.
  context_cases ctx; reflexivity.
Qed.

Lemma spec_rollRarity_in_scale {F} (A : Arith F) (ctx : RollContext) (roll : F) :
  In (spec_rollRarity A ctx roll) rarityOrder.
Proof.
  unfold spec_rollRarity, rarityOrder. cbv zeta.
  repeat match goal with |- context [if ?b then _ else _] => destruct b end;
    simpl; auto.
Qed.

Lemma normalize_exact_sum (ctx : RollContext) :
  (foldl (fun sum weight => fadd exact sum weight) (lit exact 0)
         (map snd (normalize exact (applyModifiers exact ctx))) == 1)%Q.
Proof.
  unfold applyModifiers.
  context_cases ctx; vm_compute; reflexivity.
Qed.

(** C7.  Whatever the arithmetic of the numbers is, [rollRarity] multiplies
    the base weights by the modifiers the context activates, divides each
    weight by the sum of the weights, and returns the first rarity, in the
    order common, rare, epic, legendary, whose cumulative threshold reaches
    the draw, and common when none does; it is a total function whose value
    is always one of the four rarities.  In exact arithmetic the renormalised
    weights sum to 1. *)
Theorem rollRarity_spec :
  (forall (F : Type) (A : Arith F) (context : RollContext) (roll : F),
      rollRarity A context roll = spec_rollRarity A context roll
      /\ In (rollRarity A context roll) rarityOrder)
  /\ (forall context : RollContext,
        (foldl (fun sum weight => fadd exact sum weight) (lit exact 0)
               (map snd (normalize exact (applyModifiers exact context))) == 1)%Q).
Proof.
  split.
  - intros F A context roll. split.
    + apply rollRarity_refines.
    + rewrite rollRarity_refines. apply spec_rollRarity_in_scale.
  - apply normalize_exact_sum.
Qed.

(** ** Single-elimination brackets *)

Lemma pairUp_lengths (n : nat) :
  forall roundNumber cur ms next,
    (length cur <= n)%nat ->
    length (pairUp roundNumber cur ms next).1 = (length ms + length cur / 2)%nat
    /\ length (pairUp roundNumber cur ms next).2 = (length next + length cur mod 2)%nat.
Proof.
  induction n as [|n IH]; intros roundNumber cur ms next Hn.
  - destruct cur; [|simpl in Hn; lia]. simpl. lia.
  - destruct cur as [|p1 [|p2 rest]].
    + simpl. lia.
    + simpl. rewrite length_app. simpl. lia.
    + cbn [pairUp]. destruct (IH roundNumber rest
        (ms ++ [pendingMatch
                  ("match_" +:+ pretty roundNumber +:+ "_"
                   +:+ pretty (Z.of_nat (length ms) + 1)) p1 p2])%list
        next) as [H1 H2].
      { simpl in Hn. lia. }
      rewrite H1, H2, length_app.
      change (length (p1 :: p2 :: rest)) with (2 + length rest)%nat.
      replace (2 + length rest)%nat with (length rest + 1 * 2)%nat by lia.
      rewrite Nat.div_add, Nat.Div0.mod_add by lia. simpl. lia.
Qed.

(** The list handed to the next iteration holds the participant with a bye,
    if there is one, and nothing else: the loop stops after one round. *)
Lemma singleEliminationLoop_one_round fuel rs ps roundNumber :
  (2 <= length ps)%nat ->
  singleEliminationLoop (S fuel) rs ps roundNumber
  = (rs ++ [ {| round_id := "round_" +:+ pretty roundNumber;
                number := roundNumber;
                matches := (pairUp roundNumber ps [] []).1;
                isFinal := Z.of_nat (length ps) <=? 2;
                nextRound := None |} ])%list.
Proof.
  intros Hlen. cbn [singleEliminationLoop].
  destruct (Z.ltb_spec 1 (Z.of_nat (length ps))) as [_|H]; [|lia].
  destruct (pairUp_lengths (length ps) roundNumber ps [] [] (le_n _)) as [_ Hnext].
  destruct (pairUp roundNumber ps [] []) as [ms next]. cbn [fst snd] in *.
  assert (length next <= 1)%nat as Hle.
  { rewrite Hnext. simpl. pose proof (Nat.mod_upper_bound (length ps) 2). lia. }
  destruct fuel as [|fuel]; [reflexivity|].
  cbn [singleEliminationLoop].
  destruct (Z.ltb_spec 1 (Z.of_nat (length next))) as [H|_]; [lia|reflexivity].
Qed.

(** The fuel given by [generateSingleElimination] is enough: more fuel
    gives the same rounds. *)
Lemma singleEliminationLoop_fuel fuel ps :
  (length ps <= fuel)%nat ->
  singleEliminationLoop fuel [] ps 1 = singleEliminationLoop (length ps) [] ps 1.
Proof.
  intros Hfuel. destruct (le_lt_dec 2 (length ps)) as [H2|H2].
  - destruct fuel as [|fuel]; [lia|].
    destruct (length ps) as [|n] eqn:E; [lia|].
    rewrite !singleEliminationLoop_one_round by lia. reflexivity.
  - destruct fuel as [|fuel]; destruct ps as [|p [|q ps]]; simpl in *; try reflexivity; lia.
Qed.

(** Whatever the number of participants, from two on, the bracket has one
    round: it pairs the participants and is flagged final only when there
    are two of them. *)
Lemma generateSingleElimination_one_round (participants : list Entrant) :
  (2 <= length participants)%nat ->
  exists round,
    rounds (generateSingleElimination participants) = [round]
    /\ length (matches round) = (length participants / 2)%nat
    /\ isFinal round = (Z.of_nat (length participants) <=? 2).
Proof.
  intros Hlen. unfold generateSingleElimination. cbn [rounds].
  destruct (length participants) as [|n] eqn:E; [lia|].
  rewrite singleEliminationLoop_one_round by lia.
  eexists. split; [reflexivity|]. cbn [matches isFinal]. rewrite E. split; [|reflexivity].
  destruct (pairUp_lengths (length participants) 1 participants [] [] (le_n _)) as [H _].
  rewrite H, E. reflexivity.
Qed.

Lemma singleEliminationLoop_stops fuel rs ps roundNumber :
  (length ps <= 1)%nat -> singleEliminationLoop fuel rs ps roundNumber = rs.
Proof.
  intros Hlen. destruct fuel as [|fuel]; [reflexivity|]. cbn [singleEliminationLoop].
  destruct (Z.ltb_spec 1 (Z.of_nat (length ps))); [lia | reflexivity].
Qed.

(** No round of a generated bracket names a next round. *)
Lemma generate_nextRound participants type b :
  generate participants type = Ok b ->
  Forall (fun r => nextRound r = None) (rounds b).
Proof.
  assert (forall ps, Forall (fun r => nextRound r = None)
                            (rounds (generateSingleElimination ps))) as Hsingle.
  { intros ps. unfold generateSingleElimination. cbn [rounds].
    destruct (le_lt_dec 2 (length ps)) as [H2|H2].
    - destruct (length ps) as [|n] eqn:E; [lia|].
      rewrite singleEliminationLoop_one_round by lia. repeat constructor.
    - rewrite singleEliminationLoop_stops by lia. constructor. }
  unfold generate. repeat case_bool_decide.
  - intros Hb. injection Hb as <-. apply Hsingle.
  - intros Hb. injection Hb as <-. repeat constructor.
  - unfold generateGauntlet. destruct participants as [|p [|q ps]]; try discriminate.
    intros Hb. injection Hb as <-. repeat constructor.
  - intros Hb. injection Hb as <-. apply Hsingle.
  - discriminate.
Qed.

(** On such a bracket [advanceWinners] does nothing. *)
Lemma advanceWinners_no_next ri b :
  Forall (fun r => nextRound r = None) (rounds b) ->
  advanceWinners ri b = (Ok tt, b).
Proof.
  intros Hall. unfold advanceWinners.
  destruct (rounds b !! ri) as [round|] eqn:Hround; [|reflexivity].
  rewrite Forall_lookup in Hall. rewrite (Hall _ _ Hround). reflexivity.
Qed.

(** From three participants on, the bracket has fewer rounds than
    [ceil(log2(N))]. *)
Lemma generateSingleElimination_rounds_short (participants : list Entrant) :
  (3 <= length participants)%nat ->
  Z.of_nat (length (rounds (generateSingleElimination participants)))
  < Z.log2_up (Z.of_nat (length participants)).
Proof.
  intros Hlen.
  destruct (generateSingleElimination_one_round participants) as (r & -> & _); [lia|].
  assert (Z.log2_up 3 <= Z.log2_up (Z.of_nat (length participants))) as Hmono
    by (apply Z.log2_up_le_mono; lia).
  change (Z.log2_up 3) with 2 in Hmono. simpl. lia.
Qed.

(** C1, at four participants: [ceil(log2(4))] is 2, and the bracket built has
    one round, of two matches, that is not final; no round of it holds
    exactly one match. *)
Theorem generateSingleElimination_four :
  Z.log2_up 4 = 2
  /\ length (rounds (generateSingleElimination four_participants)) = 1%nat
  /\ map (fun r => (length (matches r), isFinal r))
         (rounds (generateSingleElimination four_participants))
     = [(2%nat, false)].
Proof. repeat split; vm_compute; reflexivity. Qed.

(** ** Matches and rounds *)

(** C2, at the participants A, B, C, D where A beats B and D beats C: the
    first round is processed without error and its winners are A and D, but
    the bracket has no second round and its round names no next round, so
    that no match holds A and D. *)
Theorem processRound_four :
  let b := generateSingleElimination four_participants in
  let '(r, b') := processRound env_a_and_d_win "scenario" 0 b in
  r = Ok tt
  /\ winners b' = [[Some "A"; Some "D"]]
  /\ map nextRound (rounds b') = [None]
  /\ slots b' = [[(Some "A", Some "B"); (Some "C", Some "D")]]
  /\ rounds b' !! 1%nat = None.
Proof. vm_compute. repeat split; reflexivity. Qed.










(** ** The status of a tournament *)


Lemma status_trace_set_status s t :
  status_trace (set_status s t) = (status_trace t ++ [s])%list.
Proof. reflexivity. Qed.

Lemma onBracket_status {A} (c : M Bracket A) t r t' :
  onBracket c t = (r, t') ->
  status t' = status t /\ statusHistory t' = statusHistory t.
Proof.
  unfold onBracket. destruct (bracket t) as [b|].
  - destruct (c b) as [r0 b']. intros H. injection H as _ <-. auto.
  - intros H. injection H as _ <-. auto.
Qed.









Lemma processTournamentRounds_from_plain env n :
  plain_rounds env ->
  forall ri t r t',
    processTournamentRounds_from env n ri t = (r, t') ->
    status_trace t' = status_trace t.
Proof.
  intros Hplain. induction n as [|n IH]; intros ri t r t' H.
  - injection H as _ <-. reflexivity.
  - cbn [processTournamentRounds_from] in H. unfold bind at 1 in H. cbn [get] in H.
    unfold bind at 1 in H.
    destruct (onBracket _ t) as [r1 t1] eqn:Hb.
    apply onBracket_status in Hb as [Hs Hh].
    assert (status_trace t1 = status_trace t) as Ht1.
    { unfold status_trace. rewrite Hs, Hh. reflexivity. }
    rewrite <- Ht1.
    destruct r1 as [u|msg]; [|injection H as _ <-; reflexivity].
    unfold bind at 1 in H. cbn [get] in H.
    unfold bind at 1, liftR at 1 in H.
    destruct (property_of _) as [round|msg]; [|injection H as _ <-; reflexivity].
    destruct (isFinal round).
    + unfold bind at 1, liftR at 1 in H. specialize (Hplain round).
      destruct (round_isComplete env round) as [c|msg]; [discriminate|].
      injection H as _ <-. reflexivity.
    + eapply IH, H.
Qed.

(** With such rounds the status completed is never written: a started
    tournament is left running or in error. *)
Lemma startTournament_on_plain env t r t' :
  plain_rounds env ->
  startTournament_on env t = (r, t') ->
  t' = t
  \/ (status t = Registration
      /\ exists new, In new [[Errored]; [Running]; [Running; Errored]]
                     /\ status_trace t' = (status_trace t ++ new)%list).
Proof.
  intros Hplain. unfold startTournament_on.
  destruct (bool_decide_reflect (status t = Registration)) as [Hreg|Hreg]; cbn [negb].
  2: { intros H. injection H as _ <-. auto. }
  intros H. right. split; [exact Hreg|].
  unfold try_rethrow in H. unfold bind at 1, liftR at 1 in H.
  destruct (generate (participants t) (tournament_type t)) as [b|msg].
  - unfold bind at 1, modify at 1 in H. unfold bind at 1, modify at 1 in H.
    unfold bind at 1 in H. cbn [get] in H.
    unfold bind at 1, liftR at 1 in H.
    set (t1 := set_status Running (set_bracket (Some b) t)) in *.
    assert (status_trace t1 = (status_trace t ++ [Running])%list) as Ht1 by reflexivity.
    destruct (saveTournament env t1) as [u|msg].
    + unfold bind at 1 in H.
      destruct (processTournamentRounds env t1) as [[u'|msg] t2] eqn:Hp.
      * cbn [get] in H. injection H as _ <-.
        unfold processTournamentRounds, bind, get, liftR in Hp.
        destruct (property_of (bracket t1)); [|discriminate].
        apply (processTournamentRounds_from_plain _ _ Hplain) in Hp.
        exists [Running]. rewrite Hp, Ht1. simpl. auto.
      * injection H as _ <-. rewrite status_trace_set_status.
        assert (status_trace t2 = status_trace t1) as Hp'.
        { unfold processTournamentRounds, bind, get, liftR in Hp.
          destruct (property_of (bracket t1)).
          - apply (processTournamentRounds_from_plain _ _ Hplain) in Hp. exact Hp.
          - injection Hp as _ <-. reflexivity. }
        exists [Running; Errored]. rewrite Hp', Ht1, <- app_assoc. simpl. auto.
    + injection H as _ <-. rewrite status_trace_set_status, Ht1.
      exists [Running; Errored]. rewrite <- app_assoc. simpl. auto.
  - injection H as _ <-. exists [Errored]. rewrite status_trace_set_status. simpl. auto.
Qed.



(** ** Scenario runs *)

Lemma generateResults_state env scenario e r e' :
  generateResults env scenario e = (r, e') ->
  steps e' = steps e /\ completed e' = completed e
  /\ (forall res, r = Ok res ->
        success res = completed e /\ res_steps res = length (steps e)
        /\ res_error res = None).
Proof.
  unfold generateResults, bind, get, liftR, modify, ret. cbn.
  destruct (property_of (scoring scenario)) as [sc|msg].
  2: { intros H. injection H as <- <-. repeat split; discriminate. }
  destruct (property_of (objectives scenario)) as [ob|msg].
  2: { intros H. injection H as <- <-. repeat split; discriminate. }
  destruct (property_of (mapM id (metrics_decisions e))) as [ds|msg].
  2: { intros H. injection H as <- <-. repeat split; discriminate. }
  destruct (property_of (mapM decision (steps e))) as [ds'|msg].
  2: { intros H. injection H as <- <-. repeat split; discriminate. }
  intros H. injection H as <- <-.
  split; [reflexivity|]. split; [reflexivity|].
  intros res Hres. injection Hres as <-. repeat split.
Qed.

(** The generic loop never holds more than five steps and never writes the
    completed flag. *)
Lemma genericLoop_bound env scenario remaining :
  forall step e r e',
    (length (steps e) <= 5)%nat ->
    genericLoop env scenario remaining step e = (r, e') ->
    (length (steps e') <= 5)%nat /\ completed e' = completed e.
Proof.
  induction remaining as [|remaining IH]; intros step e r e' Hlen H.
  - injection H as _ <-. auto.
  - cbn [genericLoop] in H. unfold bind at 1 in H. cbn [get] in H.
    destruct (isComplete e) eqn:Hc; [injection H as _ <-; auto|].
    destruct (isTimedOut env scenario step e); [injection H as _ <-; auto|].
    unfold bind at 1, liftR at 1 in H.
    destruct (makeDecision env step) as [d|msg]; [|injection H as _ <-; auto].
    unfold bind at 1, modify at 1 in H. unfold bind at 1, modify at 1 in H.
    apply IH in H; [exact H|].
    unfold isComplete in Hc. apply Z.leb_gt in Hc.
    cbn [steps recordStep push_step]. rewrite length_app. simpl. lia.
Qed.

(** Without a time limit and with an agent that always answers, the loop
    stops at five steps. *)
Lemma genericLoop_five env scenario remaining :
  forall step e,
    timeLimit scenario = None ->
    (forall k, is_ok (makeDecision env k) = true) ->
    (length (steps e) <= 5)%nat ->
    (5 <= length (steps e) + remaining)%nat ->
    exists e', genericLoop env scenario remaining step e = (Ok tt, e')
               /\ length (steps e') = 5%nat.
Proof.
  induction remaining as [|remaining IH]; intros step e Hlimit Hagent Hle Hge.
  - exists e. split; [reflexivity | lia].
  - cbn [genericLoop]. unfold bind at 1. cbn [get].
    destruct (isComplete e) eqn:Hc.
    { exists e. split; [reflexivity|]. unfold isComplete in Hc. apply Z.leb_le in Hc. lia. }
    unfold isTimedOut. rewrite Hlimit.
    unfold bind at 1, liftR at 1. specialize (Hagent step) as Hd.
    destruct (makeDecision env step) as [d|msg]; [|discriminate].
    unfold bind at 1, modify at 1. unfold bind at 1, modify at 1.
    unfold isComplete in Hc. apply Z.leb_gt in Hc.
    apply IH; try assumption; cbn [steps recordStep push_step]; rewrite length_app; simpl; lia.
Qed.

(** C10.  A run that does not take the debugging branch records at most
    five steps and returns a result whose success is false, the completed
    flag being still false at the end; this holds whether or not a decision,
    or the building of the result, throws.  When the agent always answers
    and the scenario has no time limit, exactly five steps are recorded, so
    the completion check stops the loop before its cap of ten. *)
Theorem run_generic (env : RunEnv) (scenario : Scenario) :
  (forall en, environment scenario = Some en -> env_type en <> "code_debugging") ->
  let r := (run env scenario newExecution).1 in
  let e' := (run env scenario newExecution).2 in
  (res_steps r <= 5)%nat
  /\ res_steps r = length (steps e')
  /\ success r = false
  /\ completed e' = false
  /\ (5 < maxSteps)%nat
  /\ (is_Some (environment scenario) -> timeLimit scenario = None ->
      (forall k, is_ok (makeDecision env k) = true) ->
      res_steps r = 5%nat).
Proof.
  intros Hgeneric. cbv zeta.
  destruct (run env scenario newExecution) as [r e'] eqn:Hrun. cbn [fst snd].
  unfold run in Hrun. unfold bind at 1, liftR at 1 in Hrun.
  destruct (environment scenario) as [en|] eqn:Hen; cbn [property_of] in Hrun.
  2: { injection Hrun as <- <-. cbn. unfold maxSteps.
       repeat split; try lia. intros [? ?]. discriminate. }
  specialize (Hgeneric en eq_refl).
  destruct (bool_decide_reflect (env_type en = "code_debugging")) as [?|_]; [contradiction|].
  set (e0 := set_startTime (now env AtStart) newExecution) in *.
  unfold runGenericScenario in Hrun. unfold bind at 1 in Hrun.
  destruct (genericLoop env scenario maxSteps 0 e0) as [r1 e1] eqn:Hloop.
  assert (timeLimit scenario = None ->
          (forall k, is_ok (makeDecision env k) = true) ->
          r1 = Ok tt /\ length (steps e1) = 5%nat) as Hfive.
  { intros Hlimit Hagent.
    destruct (genericLoop_five env scenario maxSteps 0 e0 Hlimit Hagent)
      as (e5 & Hrun5 & H5); [unfold e0; simpl; lia | unfold e0, maxSteps; simpl; lia |].
    rewrite Hrun5 in Hloop. injection Hloop as <- <-. auto. }
  apply genericLoop_bound in Hloop as [Hlen Hcompl]; [|unfold e0; simpl; lia].
  change (completed e0) with false in Hcompl.
  destruct r1 as [u|msg].
  - unfold bind at 1, modify at 1 in Hrun.
    destruct (generateResults env scenario (set_endTime (now env AtEnd) e1))
      as [r2 e2] eqn:Hres.
    apply generateResults_state in Hres as (Hsteps & Hc & Hok).
    cbn [steps completed set_endTime] in Hsteps, Hc, Hok.
    destruct r2 as [res|msg]; injection Hrun as <- <-.
    + destruct (Hok res eq_refl) as (Hs & Hn & _).
      rewrite Hn, Hs, Hsteps, Hc, Hcompl. unfold maxSteps.
      repeat split; try lia. intros _ Hlimit Hagent. apply Hfive; assumption.
    + cbn [generateErrorResults res_steps success steps completed set_endTime].
      rewrite Hsteps, Hc, Hcompl. unfold maxSteps.
      repeat split; try lia. intros _ Hlimit Hagent. apply Hfive; assumption.
  - injection Hrun as <- <-.
    cbn [generateErrorResults res_steps success steps completed set_endTime].
    rewrite Hcompl. unfold maxSteps. repeat split; try lia.
    intros _ Hlimit Hagent. destruct (Hfive Hlimit Hagent) as [? _]. discriminate.
Qed.

Lemma run_generic_witness :
  let r := (run env_answering planning_scenario newExecution).1 in
  let e' := (run env_answering planning_scenario newExecution).2 in
  (res_steps r <= 5)%nat
  /\ res_steps r = length (steps e')
  /\ success r = false
  /\ completed e' = false
  /\ (5 < maxSteps)%nat
  /\ (is_Some (environment planning_scenario) -> timeLimit planning_scenario = None ->
      (forall k, is_ok (makeDecision env_answering k) = true) ->
      res_steps r = 5%nat).
Proof.
  apply (run_generic env_answering planning_scenario).
  intros en Hen. injection Hen as <-. simpl. discriminate.
Defined.

Lemma genericLoop_step env scenario remaining step e :
  genericLoop env scenario (S remaining) step e
  = if isComplete e then (Ok tt, e)
    else if isTimedOut env scenario step e then (Ok tt, e)
    else match makeDecision env step with
         | Ok d =>
             genericLoop env scenario remaining (S step)
               (recordStep d
                  (push_step {| step_number := Z.of_nat step + 1;
                                decision := d;
                                outcome := Applied (random_impact env step);
                                step_fixesFound := None;
                                timestamp := now env (AtStepPush step) - startTime_of e |}
                             e))
         | Throw msg => (Throw msg, e)
         end.
Proof.
  cbn [genericLoop]. unfold bind at 1. cbn [get].
  destruct (isComplete e); [reflexivity|].
  destruct (isTimedOut env scenario step e); [reflexivity|].
  unfold bind at 1, liftR at 1.
  destruct (makeDecision env step); reflexivity.
Qed.

Lemma debuggingLoop_step env scenario en remaining step fixesFound e :
  debuggingLoop env scenario en (S remaining) step fixesFound e
  = if negb (lt_num fixesFound (expectedFixes en)) then (Ok fixesFound, e)
    else if isTimedOut env scenario step e then (Ok fixesFound, e)
    else match makeDecision env step with
         | Ok d =>
             match property_of (testCases en) with
             | Ok _ =>
                 let fixesFound' :=
                   if random_fixFound env step then fixesFound + 1 else fixesFound in
                 debuggingLoop env scenario en remaining (S step) fixesFound'
                   (push_step {| step_number := Z.of_nat step + 1;
                                 decision := d;
                                 outcome := FixAttempt (random_fixFound env step)
                                                       (random_testsPassed env step);
                                 step_fixesFound := Some fixesFound';
                                 timestamp := now env (AtStepPush step) - startTime_of e |}
                              e)
             | Throw msg => (Throw msg, e)
             end
         | Throw msg => (Throw msg, e)
         end.
Proof.
  cbn [debuggingLoop]. unfold bind at 1. cbn [get].
  destruct (negb (lt_num fixesFound (expectedFixes en))); [reflexivity|].
  destruct (isTimedOut env scenario step e); [reflexivity|].
  unfold bind at 1, liftR at 1.
  destruct (makeDecision env step); [|reflexivity].
  unfold bind at 1, liftR at 1.
  destruct (property_of (testCases en)); reflexivity.
Qed.






(** ** Fusion on a small collection *)

Lemma quiet_storage_reliable : reliable quiet_storage.
Proof. repeat split. Qed.

Lemma fuseChips_result_witness :
  rarity (createFusion "chip_new" "2025-01-02T00:00:00.000Z" epic_logic epic_memory)
  = "legendary"
  /\ length (effects (createFusion "chip_new" "2025-01-02T00:00:00.000Z"
                        epic_logic epic_memory)) = 2%nat
  /\ returns (fuseChips quiet_storage "chip_new" "2025-01-02T00:00:00.000Z"
                "chip_a" "chip_b") three_chips.
Proof.
  assert (spec_compatible (category epic_logic) (category epic_memory)) as Hcompat.
  { exists ("logic", "memory"). simpl. auto. }
  assert (In (rarity epic_logic) rarityOrder) as Hscale by (simpl; auto).
  destruct (fuseChips_result quiet_storage "chip_new" "2025-01-02T00:00:00.000Z"
              "chip_a" "chip_b" three_chips epic_logic epic_memory
              eq_refl eq_refl eq_refl eq_refl Hcompat Hscale)
    as ((_ & Hlen & Hrarity & _) & _ & Hreturns).
  split; [exact Hrarity|]. split; [exact Hlen|].
  exact (Hreturns quiet_storage_reliable).
Defined.

Lemma fuseChips_refused_witness :
  (exists msg,
      fuseChips quiet_storage "chip_new" "2025-01-02T00:00:00.000Z" "chip_a" "chip_c"
        three_chips = (Throw msg, three_chips))
  /\ (exists msg,
         fuseChips quiet_storage "chip_new" "2025-01-02T00:00:00.000Z" "chip_a" "chip_z"
           three_chips = (Throw msg, three_chips)).
Proof.
  split.
  - apply (fuseChips_refused quiet_storage "chip_new" "2025-01-02T00:00:00.000Z"
             "chip_a" "chip_c" three_chips).
    right. right. exists epic_logic, rare_special. repeat split.
  - apply (fuseChips_refused quiet_storage "chip_new" "2025-01-02T00:00:00.000Z"
             "chip_a" "chip_z" three_chips).
    right. left. reflexivity.
Defined.

(** ** Winner advancement into an existing next round *)






(** ** Evaluations on small inputs *)

Lemma foldl_rules_true (l : list (string * string)) :
  forall (m : gmap string bool) k v,
    (forall k' v', m !! k' = Some v' -> v' = true) ->
    foldl (fun acc '(cat1, cat2) =>
             <[ruleKeyOf cat2 cat1 := true]> (<[ruleKeyOf cat1 cat2 := true]> acc)) m l !! k
    = Some v ->
    v = true.
Proof.
  induction l as [|[c1 c2] l IH]; intros m k v Hm; simpl.
  - apply Hm.
  - apply IH. intros k' v'. rewrite !lookup_insert.
    repeat case_decide; [congruence | congruence | apply Hm].
Qed.

(** Calling [initializeFusionRules] a second time, as [initialize] does
    after the constructor, leaves the same map. *)
Lemma initializeFusionRules_idempotent :
  initializeFusionRules (initializeFusionRules ∅) = initializeFusionRules ∅.
Proof.
  assert (forall k v, initializeFusionRules ∅ !! k = Some v -> v = true) as Hone.
  { intros k v. apply foldl_rules_true. intros k' v'. rewrite lookup_empty. discriminate. }
  assert (forall k v, initializeFusionRules (initializeFusionRules ∅) !! k = Some v -> v = true)
    as Htwo.
  { intros k v. apply foldl_rules_true. exact Hone. }
  apply map_eq. intros k.
  pose proof (initializeFusionRules_again k) as Hhas. unfold has in Hhas.
  destruct (initializeFusionRules (initializeFusionRules ∅) !! k) as [v1|] eqn:E1;
    destruct (initializeFusionRules ∅ !! k) as [v2|] eqn:E2;
    try reflexivity; try discriminate.
  rewrite (Hone _ _ E2), (Htwo _ _ E1). reflexivity.
Qed.

(** Two legendary chips fuse into a legendary chip. *)
Example createFusion_legendary (newId now : string) (a b : SkillChip) :
  rarity a = "legendary" ->
  rarity (createFusion newId now a b) = "legendary".
Proof. intros Hr. unfold createFusion. cbn [rarity]. rewrite Hr. reflexivity. Qed.

Example canFuse_examples :
  canFuse (initializeFusionRules ∅) epic_logic epic_memory = true
  /\ canFuse (initializeFusionRules ∅) epic_memory epic_logic = true
  /\ canFuse (initializeFusionRules ∅) epic_logic rare_special = false
  /\ canFuse (initializeFusionRules ∅) epic_logic epic_logic = false.
Proof. repeat split; vm_compute; reflexivity. Qed.

Example rollRarity_examples :
  rollRarity exact no_context (1 # 2) = "common"
  /\ rollRarity exact no_context (70 # 100) = "common"
  /\ rollRarity exact no_context (96 # 100) = "epic"
  /\ rollRarity exact no_context (999 # 1000) = "legendary"
  /\ rollRarity exact no_context (2 # 1) = "common"
  /\ rollRarity exact legendary_perfect (96 # 100) = "legendary".
Proof. repeat split; vm_compute; reflexivity. Qed.

(** Three participants: one match, and the participant with the bye is in
    no round. *)
Example generateSingleElimination_three :
  let b := generateSingleElimination [entrant "A"; entrant "B"; entrant "C"] in
  map (fun r => (round_id r, isFinal r, map match_id (matches r))) (rounds b)
  = [("round_1", false, ["match_1_1"])]
  /\ slots b = [[(Some "A", Some "B")]].
Proof. vm_compute. split; reflexivity. Qed.

Example generateSingleElimination_two :
  let b := generateSingleElimination [entrant "A"; entrant "B"] in
  map (fun r => (round_id r, isFinal r, map match_id (matches r))) (rounds b)
  = [("round_1", true, ["match_1_1"])]
  /\ Z.log2_up 2 = 1.
Proof. vm_compute. split; reflexivity. Qed.

(** * Further properties *)

(** ** Fusion rules and fused chips *)

Lemma canFuse_same_category (a b : SkillChip) :
  category a = category b -> canFuse (initializeFusionRules ∅) a b = false.
Proof.
  intros Hcat. destruct (canFuse _ a b) eqn:E; [|reflexivity]. exfalso.
  apply canFuse_true in E as [_ (p & Hin & Hp)]. rewrite <- Hcat in Hp.
  unfold spec_compatibility_table in Hin. simpl in Hin.
  repeat (destruct Hin as [<-|Hin]; [destruct Hp as [Hp|Hp]; inversion Hp as [[H1 H2]];
                                       rewrite H1 in H2; discriminate|]).
  destruct Hin.
Qed.

(** X1.  [canFuse] does not depend on the order of its two chips, and it
    refuses two chips of the same category, so that no chip can be fused with
    itself. *)
Theorem canFuse_symmetric_irreflexive (a b : SkillChip) :
  canFuse (initializeFusionRules ∅) a b = canFuse (initializeFusionRules ∅) b a
  /\ (category a = category b -> canFuse (initializeFusionRules ∅) a b = false).
Proof.
  split.
  - unfold canFuse.
    destruct (bool_decide_reflect (rarity a = rarity b)) as [Hr|Hr];
      destruct (bool_decide_reflect (rarity b = rarity a)) as [Hr'|Hr'];
      try congruence; cbn [negb]; [apply orb_comm | reflexivity].
  - apply canFuse_same_category.
Qed.

Lemma canFuse_symmetric_irreflexive_witness :
  canFuse (initializeFusionRules ∅) epic_logic epic_logic = false.
Proof.
  apply (canFuse_symmetric_irreflexive epic_logic epic_logic). reflexivity.
Defined.

(** X2.  A fused chip has the category synergy: two fused chips are never
    fusable with each other, and a fused chip is fusable with a chip [c]
    exactly when [c] has its rarity and one of the categories logic, memory,
    processing, special. *)
Theorem canFuse_fused (newId now newId' now' : string) (a b a' b' c : SkillChip) :
  canFuse (initializeFusionRules ∅)
    (createFusion newId now a b) (createFusion newId' now' a' b') = false
  /\ (canFuse (initializeFusionRules ∅) (createFusion newId now a b) c = true
      <-> rarity c = rarity (createFusion newId now a b)
          /\ In (category c) ["logic"; "memory"; "processing"; "special"]).
Proof.
  split.
  - apply canFuse_same_category. reflexivity.
  - rewrite canFuse_true. unfold spec_compatible, spec_compatibility_table.
    change (category (createFusion newId now a b)) with "synergy".
    split.
    + intros [Hr (p & Hin & Hp)]. split; [congruence|]. simpl in Hin |- *.
      repeat (destruct Hin as [<-|Hin];
              [destruct Hp as [Hp|Hp]; inversion Hp; auto|]).
      destruct Hin.
    + intros [Hr Hin]. split; [congruence|]. simpl in Hin.
      destruct Hin as [<-|[<-|[<-|[<-|[]]]]].
      * exists ("logic", "synergy"). simpl. auto 10.
      * exists ("memory", "synergy"). simpl. auto 10.
      * exists ("processing", "synergy"). simpl. auto 10.
      * exists ("synergy", "special"). simpl. auto 10.
Qed.

(** X3.  On the scale, the rarity of a fused chip is the next entry after
    that of its first source, the last entry staying where it is, so that
    fusion never lowers a rarity; a first source whose rarity is not on the
    scale gives a common chip. *)
Theorem createFusion_rarity_order (newId now : string) (a b : SkillChip) :
  (In (rarity a) rarityOrder ->
   indexOf rarityOrder (rarity (createFusion newId now a b))
   = Z.min (indexOf rarityOrder (rarity a) + 1) 3
   /\ indexOf rarityOrder (rarity a)
      <= indexOf rarityOrder (rarity (createFusion newId now a b)))
  /\ (~ In (rarity a) rarityOrder -> rarity (createFusion newId now a b) = "common").
Proof.
  split; [|apply createFusion_off_scale].
  intros Hin. rewrite createFusion_rarity by exact Hin.
  unfold rarityOrder in Hin. simpl in Hin.
  destruct Hin as [<-|[<-|[<-|[<-|[]]]]]; vm_compute; split; congruence.
Qed.

(** ** Fusion and the collection *)

Lemma onStorage_collection {S A} (c : M S A) (sys : ChipSystem S) r sys' :
  onStorage c sys = (r, sys') ->
  userCollection sys' = userCollection sys /\ fusionRules sys' = fusionRules sys.
Proof.
  unfold onStorage. destruct (c (storage sys)) as [r0 st']. intros H.
  injection H as _ <-. auto.
Qed.

(** Whatever the storage does, [addChipToCollection] leaves the chip in the
    collection under its id, with or without the [userId] written. *)
Lemma addChipToCollection_collection {S} (ops : ChipStorage S) chip sys r sys' :
  addChipToCollection ops chip sys = (r, sys') ->
  fusionRules sys' = fusionRules sys
  /\ exists chip',
       userCollection sys' = <[chip_id chip := chip']> (userCollection sys)
       /\ effects chip' = effects chip /\ rarity chip' = rarity chip
       /\ category chip' = category chip /\ chip_id chip' = chip_id chip
       /\ (forall v, r = Ok v -> v = chip').
Proof.
  unfold addChipToCollection, collection_set. unfold bind at 1, modify at 1.
  unfold bind at 1.
  destruct (onStorage (getUserProfile ops) _) as [r1 s1] eqn:H1.
  apply onStorage_collection in H1 as [Hc1 Hf1]. cbn [userCollection fusionRules] in Hc1, Hf1.
  destruct r1 as [[p|]|msg].
  - unfold bind at 1, modify at 1. unfold bind at 1.
    destruct (onStorage (saveSkillChip ops _) _) as [r2 s2] eqn:H2.
    apply onStorage_collection in H2 as [Hc2 Hf2]. cbn [userCollection fusionRules] in Hc2, Hf2.
    assert (userCollection s2
            = <[chip_id chip := set_userId chip (profile_id p)]> (userCollection sys)) as Hcol.
    { rewrite Hc2, Hc1. apply insert_insert_eq. }
    destruct r2 as [u|msg].
    + unfold bind at 1.
      destruct (onStorage (saveUserProfile ops _) _) as [r3 s3] eqn:H3.
      apply onStorage_collection in H3 as [Hc3 Hf3].
      destruct r3 as [u'|msg]; intros H; injection H as <- <-;
        (split; [congruence|]); exists (set_userId chip (profile_id p));
        (split; [congruence|]); repeat split; try reflexivity; congruence.
    + intros H; injection H as <- <-.
      split; [congruence|]. exists (set_userId chip (profile_id p)).
      split; [congruence|]. repeat split; try reflexivity. discriminate.
  - intros H. injection H as <- <-. split; [congruence|]. exists chip.
    split; [congruence|]. repeat split; try reflexivity. congruence.
  - intros H. injection H as <- <-. split; [congruence|]. exists chip.
    split; [congruence|]. repeat split; try reflexivity. discriminate.
Qed.

(** X4.  A successful fusion replaces the two sources by the chip returned:
    the collection afterwards is the one before with both source ids deleted
    and the new chip inserted under its id, every other entry being as
    before. *)
Theorem fuseChips_collection {S} (ops : ChipStorage S) (newId now id1 id2 : string)
    (sys sys' : ChipSystem S) (r : SkillChip) :
  fuseChips ops newId now id1 id2 sys = (Ok r, sys') ->
  userCollection sys' = <[newId := r]> (delete id2 (delete id1 (userCollection sys)))
  /\ chip_id r = newId
  /\ fusionRules sys' = fusionRules sys
  /\ (forall k, k <> id1 -> k <> id2 -> k <> newId ->
                userCollection sys' !! k = userCollection sys !! k).
Proof.
  unfold fuseChips.
  destruct (userCollection sys !! id1) as [a|]; [|discriminate].
  destruct (userCollection sys !! id2) as [b|]; [|discriminate].
  destruct (canFuse (fusionRules sys) a b); cbn [negb]; [|discriminate].
  unfold collection_delete. unfold bind at 1, modify at 1. unfold bind at 1, modify at 1.
  unfold bind at 1.
  destruct (onStorage (deleteSkillChip ops id1) _) as [r1 s1] eqn:H1.
  apply onStorage_collection in H1 as [Hc1 Hf1]. cbn [userCollection fusionRules] in Hc1, Hf1.
  destruct r1 as [u|msg]; [|discriminate].
  unfold bind at 1.
  destruct (onStorage (deleteSkillChip ops id2) _) as [r2 s2] eqn:H2.
  apply onStorage_collection in H2 as [Hc2 Hf2].
  destruct r2 as [u'|msg]; [|discriminate].
  intros H. apply addChipToCollection_collection in H as (Hf & chip' & Hcol & _ & _ & _ & Hid & Hr).
  rewrite (Hr r eq_refl) in *. cbn [chip_id createFusion] in Hcol, Hid.
  assert (userCollection sys'
          = <[newId := chip']> (delete id2 (delete id1 (userCollection sys)))) as Hfinal
    by congruence.
  split; [exact Hfinal|]. split; [exact Hid|]. split; [congruence|].
  intros k Hk1 Hk2 Hk3. rewrite Hfinal.
  rewrite lookup_insert_ne, !lookup_delete_ne by congruence. reflexivity.
Qed.

Lemma fuseChips_collection_witness :
  exists r sys',
    fuseChips quiet_storage "chip_new" "2025-01-02T00:00:00.000Z" "chip_a" "chip_b"
      three_chips = (Ok r, sys')
    /\ userCollection sys' !! "chip_a" = None
    /\ userCollection sys' !! "chip_b" = None
    /\ userCollection sys' !! "chip_new" = Some r
    /\ userCollection sys' !! "chip_c" = Some rare_special.
Proof.
  destruct (fuseChips quiet_storage "chip_new" "2025-01-02T00:00:00.000Z" "chip_a" "chip_b"
              three_chips) as [[r|msg] sys'] eqn:E; [|vm_compute in E; discriminate].
  exists r, sys'. split; [reflexivity|].
  destruct (fuseChips_collection _ _ _ _ _ _ _ _ E) as (Hcol & _ & _ & _).
  rewrite Hcol. repeat split.
Defined.

(** X5.  Fusion is not atomic: when the storage refuses to delete the first
    source, [fuseChips] throws, and the collection has by then lost both
    sources while no fused chip was added. *)
Theorem fuseChips_storage_failure {S} (ops : ChipStorage S) (newId now id1 id2 : string)
    (sys : ChipSystem S) (a b : SkillChip) (msg : string) :
  userCollection sys !! id1 = Some a ->
  userCollection sys !! id2 = Some b ->
  canFuse (fusionRules sys) a b = true ->
  (deleteSkillChip ops id1 (storage sys)).1 = Throw msg ->
  exists sys',
    fuseChips ops newId now id1 id2 sys = (Throw msg, sys')
    /\ userCollection sys' = delete id2 (delete id1 (userCollection sys))
    /\ userCollection sys' !! id1 = None
    /\ userCollection sys' !! id2 = None.
Proof.
  intros H1 H2 Hcan Hdel. unfold fuseChips. rewrite H1, H2, Hcan. cbn [negb].
  unfold collection_delete. unfold bind at 1, modify at 1. unfold bind at 1, modify at 1.
  unfold bind at 1, onStorage at 1. cbn [storage userCollection fusionRules].
  destruct (deleteSkillChip ops id1 (storage sys)) as [r st'] eqn:E.
  cbn [fst] in Hdel. subst r. eexists. split; [reflexivity|].
  cbn [userCollection]. split; [reflexivity|]. split.
  - destruct (decide (id1 = id2)) as [->|Hne].
    + apply lookup_delete_eq.
    + rewrite lookup_delete_ne by congruence. apply lookup_delete_eq.
  - apply lookup_delete_eq.
Qed.

Lemma fuseChips_storage_failure_witness :
  exists sys',
    fuseChips storage_delete_fails "chip_new" "2025-01-02T00:00:00.000Z" "chip_a" "chip_b"
      three_chips = (Throw "Transaction failed", sys')
    /\ userCollection sys' = delete "chip_b" (delete "chip_a" (userCollection three_chips))
    /\ userCollection sys' !! "chip_a" = None
    /\ userCollection sys' !! "chip_b" = None.
Proof.
  apply (fuseChips_storage_failure storage_delete_fails "chip_new"
           "2025-01-02T00:00:00.000Z" "chip_a" "chip_b" three_chips epic_logic epic_memory);
    reflexivity.
Defined.

(** ** Chip types *)

Lemma append_suffix (c s t : string) : c +:+ s = t -> In s (suffixes t).
Proof.
  revert t. induction c as [|x c IH]; intros t H.
  - rewrite append_nil in H. subst t. destruct s; simpl; auto.
  - rewrite append_cons in H. subst t. simpl. right. apply IH. reflexivity.
Qed.

(** X6.  No chip type has an id ending in [_reward]: [generateRewardChip]
    throws for every reward category, before and after the chip types are
    initialised, so that no achievement reward chip is ever created. *)
Theorem generateRewardChip_throws (newId now category rarity : string) (unique : bool) :
  generateRewardChip (initializeChipTypes []) newId now category rarity unique
  = Throw ("Unknown chip type: " +:+ category +:+ "_reward")
  /\ generateRewardChip [] newId now category rarity unique
     = Throw ("Unknown chip type: " +:+ category +:+ "_reward").
Proof.
  split; [|reflexivity].
  unfold generateRewardChip, create.
  assert (getChipType (initializeChipTypes []) (Some (category +:+ "_reward")) = None) as ->;
    [|reflexivity].
  unfold getChipType.
  let v := eval vm_compute in (initializeChipTypes []) in
  change (initializeChipTypes []) with v.
  cbn [find type_id].
  repeat (case_bool_decide as Heq;
          [exfalso; symmetry in Heq; apply append_suffix in Heq; vm_compute in Heq;
           repeat (destruct Heq as [Heq|Heq]; [discriminate|]); destruct Heq
          |clear Heq]).
  reflexivity.
Qed.

(** ** Random chips *)

Lemma selectCategory_valid {F} (dice : Dice F) (rarity : string) (context : ChipContext) :
  in_range (category_index dice) ->
  (forall k, ctx_scenario context = Some (Some k) -> inherited_property k = false) ->
  exists c, selectCategory dice rarity context = Some c /\ In c categories.
Proof.
  intros Hrange Hown. unfold selectCategory.
  assert (forall l, l <> [] -> (forall c, In c l -> In c categories) ->
                    exists c, l !! category_index dice (length l) = Some c
                              /\ In c categories) as Hpick.
  { intros l Hl Hsub.
    destruct (lookup_lt_is_Some_2 l (category_index dice (length l))) as [c Hc].
    { apply Hrange. destruct l; [congruence | simpl; lia]. }
    exists c. split; [exact Hc|]. apply Hsub. apply list_elem_of_In.
    eapply list_elem_of_lookup_2, Hc. }
  assert (exists c, (if bool_decide (rarity = "legendary")
                     then Some (if coin dice then "special" else "synergy")
                     else categories !! category_index dice (length categories)) = Some c
                    /\ In c categories) as Hdefault.
  { case_bool_decide.
    - eexists. split; [reflexivity|]. destruct (coin dice); simpl; auto 10.
    - apply Hpick; [discriminate | auto]. }
  destruct (ctx_scenario context) as [[k|]|] eqn:Hscen; cbn [mbind option_bind];
    try exact Hdefault.
  specialize (Hown k eq_refl). unfold scenarioCategories. rewrite Hown.
  destruct (bool_decide (k = "debug"));
    [apply Hpick; [discriminate | simpl; intuition]|].
  destruct (bool_decide (k = "planning"));
    [apply Hpick; [discriminate | simpl; intuition]|].
  destruct (bool_decide (k = "analysis"));
    [apply Hpick; [discriminate | simpl; intuition]|].
  destruct (bool_decide (k = "creative"));
    [apply Hpick; [discriminate | simpl; intuition]|].
  exact Hdefault.
Qed.

Lemma selectChipType_valid {F} (dice : Dice F) (c : string) :
  in_range (type_index dice) ->
  In c categories ->
  exists t, getChipType (initializeChipTypes [])
              (selectChipType (initializeChipTypes []) dice (Some c)) = Some t
            /\ type_category t = c /\ type_effects t <> [].
Proof.
  intros Hrange Hin. unfold selectChipType.
  let v := eval vm_compute in (initializeChipTypes []) in
  change (initializeChipTypes []) with v.
  unfold categories in Hin. simpl in Hin.
  destruct Hin as [<-|[<-|[<-|[<-|[<-|[]]]]]];
    match goal with
    | |- context [getTypesByCategory ?ts ?c] =>
        let l := eval vm_compute in (getTypesByCategory ts c) in
        change (getTypesByCategory ts c) with l
    end; cbn [length];
    match goal with
    | |- context [type_index dice ?n] =>
        assert (type_index dice n < n)%nat as Hlt by (apply Hrange; lia);
        destruct (type_index dice n) as [|[|k]]; try lia
    end; cbn; eexists; repeat split; discriminate.
Qed.

(** X7.  With the chip types initialised, random indices within range and a
    scenario category that is not a name inherited from [Object.prototype],
    [generateRandomChip] never throws: it returns a chip whose rarity is one
    of the four of the scale, whose category is the one [selectCategory]
    drew, one of the five, with at least one effect and not fused; the
    tournament bonus, if any, is 50 or 25. *)
Theorem generateRandomChip_valid {F} (A : Arith F) (dice : Dice F) (newId now : string)
    (context : ChipContext) :
  in_range (category_index dice) ->
  in_range (type_index dice) ->
  (forall k, ctx_scenario context = Some (Some k) -> inherited_property k = false) ->
  exists c,
    generateRandomChip A (initializeChipTypes []) dice newId now context = Ok c
    /\ chip_id (chip c) = newId
    /\ rarity (chip c) = rollRarity A (rollContext context) (rarity_roll dice)
    /\ In (rarity (chip c)) rarityOrder
    /\ selectCategory dice (rarity (chip c)) context = Some (category (chip c))
    /\ In (category (chip c)) categories
    /\ effects (chip c) <> []
    /\ fused (chip c) = false
    /\ (forall id bonus, tournamentBonus c = Some (id, bonus) -> bonus = 50 \/ bonus = 25).
Proof.
  intros Hcat Htype Hown. unfold generateRandomChip.
  set (r := rollRarity A (rollContext context) (rarity_roll dice)).
  destruct (selectCategory_valid dice r context Hcat Hown) as (c & Hsel & Hin).
  rewrite Hsel.
  destruct (selectChipType_valid dice c Htype Hin) as (t & Ht & Htc & Hte).
  unfold create. rewrite Ht. cbn [bindR].
  eexists. split; [reflexivity|].
  assert (In r rarityOrder) as Hr.
  { unfold r. rewrite rollRarity_refines. apply spec_rollRarity_in_scale. }
  destruct (ctx_tournament context) as [[id tier]|]; destruct (ctx_achievement context);
    cbn; rewrite ?Htc; repeat split; auto;
    intros id' bonus Hb; try discriminate;
    injection Hb as _ <-; case_bool_decide; auto.
Qed.

Lemma generateRandomChip_valid_witness :
  exists c,
    generateRandomChip exact (initializeChipTypes []) fair_dice "chip_1"
      "2025-01-02T00:00:00.000Z" debug_tournament_context = Ok c
    /\ rarity (chip c) = "legendary"
    /\ category (chip c) = "logic"
    /\ tournamentBonus c = Some (Some "tournament_1", 50).
Proof.
  destruct (generateRandomChip_valid exact fair_dice "chip_1" "2025-01-02T00:00:00.000Z"
              debug_tournament_context) as (c & Hgen & _).
  - intros n Hn. simpl. lia.
  - intros n Hn. simpl. lia.
  - intros k Hk. injection Hk as <-. reflexivity.
  - exists c. split; [exact Hgen|]. vm_compute in Hgen. injection Hgen as <-.
    repeat split.
Defined.

(** X8.  A context whose scenario category is a name every object inherits
    makes [generateRandomChip] throw: the category drawn is [undefined], no
    chip type has it, and [create] refuses the [undefined] type. *)
Theorem generateRandomChip_inherited_category {F} (A : Arith F) (chipTypes : list ChipType)
    (dice : Dice F) (newId now : string) (context : ChipContext) (k : string) :
  ctx_scenario context = Some (Some k) ->
  inherited_property k = true ->
  generateRandomChip A chipTypes dice newId now context
  = Throw "Unknown chip type: undefined".
Proof.
  intros Hscen Hinh.
  assert (scenarioCategories (Some k) = Some []) as Hnone.
  { unfold scenarioCategories. rewrite Hinh.
    unfold inherited_property in Hinh. apply bool_decide_eq_true in Hinh.
    repeat case_bool_decide; subst; try reflexivity;
      exfalso; simpl in Hinh; intuition discriminate. }
  unfold generateRandomChip, selectCategory. rewrite Hscen.
  cbn [mbind option_bind]. rewrite Hnone, lookup_nil.
  unfold selectChipType.
  assert (getTypesByCategory chipTypes None = []) as ->.
  { unfold getTypesByCategory. induction chipTypes as [|t ts IH]; [reflexivity|].
    rewrite filter_cons. case_decide; [discriminate | exact IH]. }
  rewrite lookup_nil. reflexivity.
Qed.

Lemma generateRandomChip_inherited_category_witness :
  generateRandomChip exact (initializeChipTypes []) fair_dice "chip_1"
    "2025-01-02T00:00:00.000Z"
    {| ctx_tournament := None; ctx_firstWin := false; ctx_perfectScore := false;
       ctx_scenario := Some (Some "constructor"); ctx_achievement := None |}
  = Throw "Unknown chip type: undefined".
Proof.
  apply (generateRandomChip_inherited_category exact (initializeChipTypes []) fair_dice
           "chip_1" "2025-01-02T00:00:00.000Z" _ "constructor"); reflexivity.
Defined.

(** ** Counting and valuing the collection *)

Lemma countKey_zeroCounts (keys : list string) (f : string -> Z) (key : string) :
  countKey (map (fun k => (k, f k)) keys) key
  = map (fun k => (k, f k + (if bool_decide (k = key) then 1 else 0))) keys.
Proof.
  unfold countKey. rewrite map_map. apply map_ext. intros k. cbn.
  case_bool_decide; [reflexivity | rewrite Z.add_0_r; reflexivity].
Qed.

Lemma count_fold (proj : SkillChip -> string) (keys : list string) (chips : list SkillChip) :
  forall f : string -> Z,
    foldl (fun counts chip => countKey counts (proj chip))
          (map (fun k => (k, f k)) keys) chips
    = map (fun k => (k, f k + count_by proj k chips)) keys.
Proof.
  induction chips as [|c chips IH]; intros f; cbn [foldl].
  - apply map_ext. intros k. unfold count_by. simpl. rewrite Z.add_0_r. reflexivity.
  - rewrite countKey_zeroCounts, IH. apply map_ext. intros k. f_equal.
    unfold count_by. rewrite filter_cons.
    destruct (decide (proj c = k)) as [->|Hne].
    + rewrite bool_decide_eq_true_2 by reflexivity. cbn [length]. lia.
    + rewrite bool_decide_eq_false_2 by congruence. lia.
Qed.

Lemma on_scale_count (chips : list SkillChip) :
  count_by rarity "common" chips + count_by rarity "rare" chips
  + count_by rarity "epic" chips + count_by rarity "legendary" chips
  = Z.of_nat (length (filter (fun c => In (rarity c) rarityOrder) chips)).
Proof.
  unfold count_by. induction chips as [|c chips IH]; [reflexivity|].
  rewrite !filter_cons.
  repeat case_decide; cbn [length]; try lia;
    exfalso; unfold rarityOrder in *; simpl in *; intuition congruence.
Qed.

(** X9.  [getCountsByRarity] gives, for each of the four rarities in the
    order of its table, the number of chips of that rarity; the four counts
    add up to the number of chips whose rarity is one of the four, so that a
    chip of any other rarity is in the collection but in no count. *)
Theorem getCountsByRarity_counts (chips : list SkillChip) :
  getCountsByRarity chips
  = map (fun k => (k, count_by rarity k chips)) ["common"; "rare"; "epic"; "legendary"]
  /\ sum_counts (getCountsByRarity chips)
     = Z.of_nat (length (filter (fun c => In (rarity c) rarityOrder) chips))
  /\ sum_counts (getCountsByRarity chips) <= Z.of_nat (length chips).
Proof.
  assert (getCountsByRarity chips
          = map (fun k => (k, count_by rarity k chips))
                ["common"; "rare"; "epic"; "legendary"]) as Heq.
  { unfold getCountsByRarity, zeroCounts.
    rewrite (count_fold rarity _ chips (fun _ => 0)). reflexivity. }
  split; [exact Heq|].
  assert (sum_counts (getCountsByRarity chips)
          = Z.of_nat (length (filter (fun c => In (rarity c) rarityOrder) chips))) as Hsum.
  { rewrite Heq, <- on_scale_count. cbn. lia. }
  split; [exact Hsum|]. rewrite Hsum.
  pose proof (length_filter (fun c => In (rarity c) rarityOrder) chips). lia.
Qed.

(** X10.  [getCountsByCategory] gives, for each of the five categories in the
    order of its table, the number of chips of that category. *)
Theorem getCountsByCategory_counts (chips : list SkillChip) :
  getCountsByCategory chips
  = map (fun k => (k, count_by category k chips))
        ["processing"; "logic"; "memory"; "synergy"; "special"].
Proof.
  unfold getCountsByCategory, zeroCounts.
  rewrite (count_fold category _ chips (fun _ => 0)). reflexivity.
Qed.

Lemma getCollectionValue_cons (c : SkillChip) (chips : list SkillChip) :
  getCollectionValue (c :: chips)
  = v ← rarityValue (rarity c); t ← getCollectionValue chips; Some (v + t).
Proof.
  unfold getCollectionValue. cbn [foldl].
  assert (forall l (acc : option Z) (v : Z),
             foldl (fun total chip => t ← total; v ← rarityValue (rarity chip); Some (t + v))
                   (t ← acc; Some (t + v)) l
             = t ← foldl (fun total chip =>
                            t ← total; v ← rarityValue (rarity chip); Some (t + v)) acc l;
               Some (t + v)) as Hshift.
  { induction l as [|x l IH]; intros acc v; [reflexivity|]. cbn [foldl].
    destruct acc as [t|]; cbn.
    - destruct (rarityValue (rarity x)) as [w|]; cbn.
      + rewrite <- (IH (Some (t + w)) v). cbn. do 2 f_equal. lia.
      + rewrite <- (IH None v). reflexivity.
    - rewrite <- (IH None v). reflexivity. }
  destruct (rarityValue (rarity c)) as [v|]; cbn.
  - specialize (Hshift chips (Some 0) v). cbn in Hshift.
    replace (0 + v) with v in * by lia.
    change (Some v) with (t ← Some 0; Some (t + v)) at 1. cbn. rewrite Z.add_0_l.
    rewrite Hshift.
    destruct (foldl _ (Some 0) chips); cbn; [f_equal; lia | reflexivity].
  - induction chips as [|x l IH]; [reflexivity | exact IH].
Qed.

(** X11.  The value of the collection and fusion: replacing two chips of
    equal rarity by their fused chip raises the value of the collection when
    the rarity is common, rare or epic (from 2 to 5, 10 to 25, 50 to 100) and
    halves it, from 200 to 100, when the rarity is legendary. *)
Theorem getCollectionValue_fusion (newId now : string) (a b : SkillChip)
    (rest : list SkillChip) (v : Z) :
  rarity a = rarity b ->
  In (rarity a) rarityOrder ->
  getCollectionValue rest = Some v ->
  exists before after,
    getCollectionValue (a :: b :: rest) = Some (v + before)
    /\ getCollectionValue (createFusion newId now a b :: rest) = Some (v + after)
    /\ (rarity a <> "legendary" -> before < after)
    /\ (rarity a = "legendary" -> before = 200 /\ after = 100).
Proof.
  intros Heq Hin Hrest.
  rewrite !getCollectionValue_cons, Hrest, createFusion_rarity by exact Hin.
  rewrite <- Heq. unfold rarityOrder in Hin. simpl in Hin.
  destruct Hin as [<-|[<-|[<-|[<-|[]]]]];
    repeat match goal with
           | |- context [rarityValue ?r] =>
               let x := eval vm_compute in (rarityValue r) in
               change (rarityValue r) with x
           end; cbn.
  - exists 2, 5. split; [f_equal; lia|]. split; [f_equal; lia|].
    split; [intros _; lia | intros Hl; discriminate Hl].
  - exists 10, 25. split; [f_equal; lia|]. split; [f_equal; lia|].
    split; [intros _; lia | intros Hl; discriminate Hl].
  - exists 50, 100. split; [f_equal; lia|]. split; [f_equal; lia|].
    split; [intros _; lia | intros Hl; discriminate Hl].
  - exists 200, 100. split; [f_equal; lia|]. split; [f_equal; lia|].
    split; [intros Hl; congruence | intros _; split; reflexivity].
Qed.

Lemma getCollectionValue_fusion_witness :
  exists before after,
    getCollectionValue [epic_logic; epic_memory; rare_special] = Some (5 + before)
    /\ getCollectionValue
         [createFusion "chip_new" "2025-01-02T00:00:00.000Z" epic_logic epic_memory;
          rare_special] = Some (5 + after)
    /\ before = 50 /\ after = 100.
Proof.
  destruct (getCollectionValue_fusion "chip_new" "2025-01-02T00:00:00.000Z"
              epic_logic epic_memory [rare_special] 5 eq_refl)
    as (before & after & Hb & Ha & _); [simpl; auto | reflexivity |].
  exists before, after. split; [exact Hb|]. split; [exact Ha|].
  change (getCollectionValue [epic_logic; epic_memory; rare_special]) with (Some 55) in Hb.
  change (getCollectionValue
            [createFusion "chip_new" "2025-01-02T00:00:00.000Z" epic_logic epic_memory;
             rare_special]) with (Some 105) in Ha.
  injection Hb as Hb. injection Ha as Ha. lia.
Defined.



(** ** Importing chips *)

Lemma importLoop_spec {St} (ops : ChipStorage St) (chips : list SkillChip) :
  forall imported sys,
    let '(n, sys') := importLoop ops chips imported sys in
    (imported <= n <= imported + length chips)%nat
    /\ (reliable ops -> n = (imported + length chips)%nat)
    /\ fusionRules sys' = fusionRules sys
    /\ (forall k, ~ In k (map chip_id chips) ->
                  userCollection sys' !! k = userCollection sys !! k)
    /\ (NoDup (map chip_id chips) ->
        forall c, In c chips ->
                  exists c', userCollection sys' !! chip_id c = Some c'
                             /\ chip_id c' = chip_id c /\ rarity c' = rarity c
                             /\ category c' = category c /\ effects c' = effects c).
Proof.
  induction chips as [|c chips IH]; intros imported sys.
  - cbn. repeat split; try lia; auto.
  - cbn [importLoop].
    destruct (addChipToCollection ops c sys) as [r sys1] eqn:Hadd.
    pose proof (addChipToCollection_collection ops c sys r sys1 Hadd)
      as (Hf1 & c1 & Hcol1 & He & Hr & Hc & Hid & _).
    assert (forall n,
               let '(m, sys') := importLoop ops chips n sys1 in
               (n <= m <= n + length chips)%nat
               /\ (reliable ops -> m = (n + length chips)%nat)
               /\ fusionRules sys' = fusionRules sys
               /\ (forall k, ~ In k (map chip_id (c :: chips)) ->
                             userCollection sys' !! k = userCollection sys !! k)
               /\ (NoDup (map chip_id (c :: chips)) ->
                   forall x, In x (c :: chips) ->
                             exists c', userCollection sys' !! chip_id x = Some c'
                                        /\ chip_id c' = chip_id x /\ rarity c' = rarity x
                                        /\ category c' = category x
                                        /\ effects c' = effects x)) as Hrest.
    { intros n. specialize (IH n sys1).
      destruct (importLoop ops chips n sys1) as [m sys'].
      destruct IH as (Hn & Hrel & Hf & Hother & Hin).
      split; [exact Hn|]. split; [exact Hrel|]. split; [congruence|]. split.
      - intros k Hk. cbn [map] in Hk. rewrite Hother by (intros ?; apply Hk; right; auto).
        rewrite Hcol1. apply lookup_insert_ne. intros Hsame. apply Hk. left. exact Hsame.
      - intros Hnd x Hx. cbn [map] in Hnd. apply NoDup_cons in Hnd as [Hnotin Hnd].
        destruct Hx as [<-|Hx].
        + exists c1. rewrite Hother by (rewrite <- list_elem_of_In; exact Hnotin).
          rewrite Hcol1, lookup_insert_eq. auto.
        + apply Hin; assumption. }
    destruct r as [v|msg].
    + specialize (Hrest (S imported)).
      destruct (importLoop ops chips (S imported) sys1) as [m sys'].
      destruct Hrest as (Hn & Hrel & Hrest). cbn [length].
      split; [lia|]. split; [intros Hr'; rewrite (Hrel Hr'); lia | exact Hrest].
    + specialize (Hrest imported).
      destruct (importLoop ops chips imported sys1) as [m sys'].
      destruct Hrest as (Hn & Hrel & Hrest). cbn [length].
      split; [lia|]. split; [|exact Hrest].
      intros Hr'. exfalso.
      destruct (addChipToCollection_returns ops c sys Hr') as (v & s & Hv).
      rewrite Hv in Hadd. discriminate.
Qed.

(** X13.  Importing a list of chips with distinct ids puts every one of them
    into the collection under its id, with its rarity, category and effects,
    whatever the storage does, and leaves the other entries alone: a chip
    whose saving throws is not counted as imported but stays in the
    collection.  The count of imported chips is at most the total and equals
    it when no storage call throws. *)
Theorem importChips_collection {S} (ops : ChipStorage S) (chips : list SkillChip)
    (sys : ChipSystem S) :
  NoDup (map chip_id chips) ->
  let '((imported, total), sys') := importChips ops chips sys in
  total = length chips
  /\ (imported <= total)%nat
  /\ (reliable ops -> imported = total)
  /\ (forall c, In c chips ->
                exists c', userCollection sys' !! chip_id c = Some c'
                           /\ chip_id c' = chip_id c /\ rarity c' = rarity c
                           /\ category c' = category c /\ effects c' = effects c)
  /\ (forall k, ~ In k (map chip_id chips) ->
                userCollection sys' !! k = userCollection sys !! k).
Proof.
  intros Hnd. unfold importChips.
  pose proof (importLoop_spec ops chips 0 sys) as H.
  destruct (importLoop ops chips 0 sys) as [n sys'].
  destruct H as (Hn & Hrel & _ & Hother & Hin).
  split; [reflexivity|]. split; [lia|]. split; [intros Hr; rewrite (Hrel Hr); lia|].
  split; [apply Hin, Hnd | exact Hother].
Qed.

Lemma importChips_collection_witness :
  let '((imported, total), sys') :=
    importChips storage_save_fails [epic_logic; rare_special] empty_system in
  imported = 0%nat /\ total = 2%nat
  /\ (exists c', userCollection sys' !! "chip_a" = Some c' /\ rarity c' = "epic")
  /\ (exists c', userCollection sys' !! "chip_c" = Some c' /\ rarity c' = "rare").
Proof.
  pose proof (importChips_collection storage_save_fails [epic_logic; rare_special]
                empty_system) as H.
  destruct (importChips storage_save_fails [epic_logic; rare_special] empty_system)
    as [[imported total] sys'] eqn:E.
  destruct H as (Ht & _ & _ & Hin & _).
  { repeat constructor; rewrite list_elem_of_In; simpl; intuition discriminate. }
  assert (imported = 0%nat) as -> by (vm_compute in E; congruence).
  split; [reflexivity|]. split; [exact Ht|]. split.
  - destruct (Hin epic_logic) as (c' & Hc' & _ & Hr & _); [simpl; auto|]. eauto.
  - destruct (Hin rare_special) as (c' & Hc' & _ & Hr & _); [simpl; auto|]. eauto.
Defined.

(** ** Round robin *)

Lemma roundRobin_inner (p : Entrant) (rest : list Entrant) :
  forall ms,
    numbered "match_" ms ->
    map pairing (foldl (fun ms q =>
                          (ms ++ [pendingMatch
                                    ("match_" +:+ pretty (Z.of_nat (length ms) + 1)) p q])%list)
                       ms rest)
    = (map pairing ms ++ map (fun q => (Some p, Some q)) rest)%list
    /\ numbered "match_"
         (foldl (fun ms q =>
                   (ms ++ [pendingMatch
                             ("match_" +:+ pretty (Z.of_nat (length ms) + 1)) p q])%list)
                ms rest).
Proof.
  induction rest as [|q rest IH]; intros ms Hnum; cbn [foldl].
  - rewrite app_nil_r. auto.
  - destruct (IH (ms ++ [pendingMatch ("match_" +:+ pretty (Z.of_nat (length ms) + 1)) p q])%list)
      as [Hp Hn].
    { intros i m Hi. destruct (decide (i < length ms)%nat) as [Hlt|Hge].
      - rewrite lookup_app_l in Hi by exact Hlt. apply Hnum, Hi.
      - rewrite lookup_app_r in Hi by lia.
        destruct (i - length ms)%nat as [|k] eqn:Hk; [|destruct k; discriminate].
        injection Hi as <-. cbn [match_id pendingMatch].
        replace i with (length ms) by lia. reflexivity. }
    split; [|exact Hn]. rewrite Hp, map_app, <- app_assoc. reflexivity.
Qed.

Lemma roundRobinLoop_pairs (participants : list Entrant) :
  forall ms,
    numbered "match_" ms ->
    map pairing (roundRobinLoop participants ms)
    = (map pairing ms
       ++ map (fun pq => (Some pq.1, Some pq.2)) (all_pairs participants))%list
    /\ numbered "match_" (roundRobinLoop participants ms).
Proof.
  induction participants as [|p rest IH]; intros ms Hnum; cbn [roundRobinLoop all_pairs].
  - rewrite app_nil_r. auto.
  - destruct (roundRobin_inner p rest ms Hnum) as [Hp Hn].
    destruct (IH _ Hn) as [Hp' Hn']. split; [|exact Hn'].
    rewrite Hp', Hp, map_app, map_map, <- app_assoc. reflexivity.
Qed.

Lemma all_pairs_length {A} (l : list A) :
  (2 * length (all_pairs l) = length l * (length l - 1))%nat.
Proof.
  induction l as [|x l IH]; [reflexivity|].
  cbn [all_pairs length]. rewrite length_app, length_map. nia.
Qed.

(** X14.  The round-robin bracket is one final round whose matches are all
    the pairs of participants, each participant with every later one, in
    that order, numbered [match_1], [match_2], ...: for [N] participants
    there are [N (N - 1) / 2] matches, none for fewer than two. *)
Theorem generateRoundRobin_pairs (participants : list Entrant) :
  exists round,
    rounds (generateRoundRobin participants) = [round]
    /\ isFinal round = true
    /\ map pairing (matches round)
       = map (fun pq => (Some pq.1, Some pq.2)) (all_pairs participants)
    /\ numbered "match_" (matches round)
    /\ (2 * length (matches round)
        = length participants * (length participants - 1))%nat.
Proof.
  eexists. split; [reflexivity|]. cbn [isFinal matches].
  destruct (roundRobinLoop_pairs participants []) as [Hp Hn].
  { intros i m Hi. discriminate. }
  split; [reflexivity|]. split; [exact Hp|]. split; [exact Hn|].
  rewrite <- all_pairs_length. f_equal.
  apply (f_equal length) in Hp. cbn [map app] in Hp.
  rewrite !length_map in Hp. exact Hp.
Qed.

(** ** Gauntlet *)



(** ** The shape of the generated brackets *)







(** X18.  [generate] builds a bracket for the four known tournament types
    and throws for every other string; the gauntlet is the only type that
    can be refused for its participants.  Every bracket built has at most
    one round, none of its rounds names a next round, and a team battle is
    labelled as a single-elimination bracket. *)
Theorem generate_brackets (participants : list Entrant) (type : string) :
  match generate participants type with
  | Ok b =>
      (type ∈ ["single-elimination"; "round-robin"; "gauntlet"; "team-battle"])
      /\ bracket_type b
         = (if bool_decide (type = "team-battle") then "single-elimination" else type)
      /\ (length (rounds b) <= 1)%nat
      /\ Forall (fun r => nextRound r = None) (rounds b)
  | Throw msg =>
      (type = "gauntlet" /\ length participants <> 1%nat
       /\ msg = "Gauntlet mode requires exactly one participant")
      \/ ((type ∉ ["single-elimination"; "round-robin"; "gauntlet"; "team-battle"])
          /\ msg = "Unknown tournament type: " +:+ type)
  end.
Proof.
  assert (forall ps, (length (rounds (generateSingleElimination ps)) <= 1)%nat) as Hone.
  { intros ps. destruct (le_lt_dec 2 (length ps)) as [H2|H2].
    - destruct (generateSingleElimination_one_round ps H2) as (r & -> & _). simpl. lia.
    - unfold generateSingleElimination. cbn [rounds].
      rewrite singleEliminationLoop_stops by lia. simpl. lia. }
  pose proof (generate_nextRound participants type) as Hnext.
  unfold generate in *.
  destruct (bool_decide_reflect (type = "single-elimination")) as [->|H1].
  { split; [set_solver|]. split; [reflexivity|]. split; [apply Hone | apply Hnext; reflexivity]. }
  destruct (bool_decide_reflect (type = "round-robin")) as [->|H2].
  { split; [set_solver|]. split; [reflexivity|]. split; [simpl; lia | apply Hnext; reflexivity]. }
  destruct (bool_decide_reflect (type = "gauntlet")) as [->|H3].
  { unfold generateGauntlet in *. destruct participants as [|p [|q ps]].
    - left. split; [reflexivity|]. split; [simpl; lia | reflexivity].
    - split; [set_solver|]. split; [reflexivity|].
      split; [simpl; lia | apply Hnext; reflexivity].
    - left. split; [reflexivity|]. split; [simpl; lia | reflexivity]. }
  destruct (bool_decide_reflect (type = "team-battle")) as [->|H4].
  { split; [set_solver|]. split; [reflexivity|]. split; [apply Hone | apply Hnext; reflexivity]. }
  right. split; [|reflexivity].
  rewrite !elem_of_cons, elem_of_nil. tauto.
Qed.

(** ** Rounds of generated and of hand-built brackets *)











(** ** The result of a match *)



(** ** Registration *)

Lemma onBracket_roster {A} (c : M Bracket A) t r t' :
  onBracket c t = (r, t') -> roster t' = roster t.
Proof.
  unfold onBracket. destruct (bracket t) as [b|].
  - destruct (c b) as [r0 b']. intros H. injection H as _ <-. reflexivity.
  - intros H. injection H as _ <-. reflexivity.
Qed.

Lemma completeTournament_roster env t r t' :
  completeTournament env t = (r, t') -> roster t' = roster t.
Proof.
  unfold completeTournament, bind, modify, get, liftR. cbn.
  destruct (saveTournament env _); intros H; injection H as _ <-; reflexivity.
Qed.

Lemma processTournamentRounds_from_roster env n :
  forall ri t r t',
    processTournamentRounds_from env n ri t = (r, t') -> roster t' = roster t.
Proof.
  induction n as [|n IH]; intros ri t r t' H.
  - injection H as _ <-. reflexivity.
  - cbn [processTournamentRounds_from] in H. unfold bind at 1 in H. cbn [get] in H.
    unfold bind at 1 in H.
    destruct (onBracket _ t) as [r1 t1] eqn:Hb.
    apply onBracket_roster in Hb. rewrite <- Hb.
    destruct r1 as [u|msg]; [|injection H as _ <-; reflexivity].
    unfold bind at 1 in H. cbn [get] in H.
    unfold bind at 1, liftR at 1 in H.
    destruct (property_of _) as [round|msg]; [|injection H as _ <-; reflexivity].
    destruct (isFinal round).
    + unfold bind at 1, liftR at 1 in H.
      destruct (round_isComplete env round) as [[|]|msg].
      * eapply completeTournament_roster, H.
      * eapply IH, H.
      * injection H as _ <-. reflexivity.
    + eapply IH, H.
Qed.

Lemma processTournamentRounds_roster env t r t' :
  processTournamentRounds env t = (r, t') -> roster t' = roster t.
Proof.
  unfold processTournamentRounds, bind, get, liftR.
  destruct (property_of (bracket t)) as [b|msg].
  - apply processTournamentRounds_from_roster.
  - intros H. injection H as _ <-. reflexivity.
Qed.

(** Starting a tournament never touches what it was registered with. *)
Lemma startTournament_on_roster env t r t' :
  startTournament_on env t = (r, t') -> roster t' = roster t.
Proof.
  unfold startTournament_on.
  destruct (bool_decide (status t = Registration)); cbn [negb].
  2: { intros H. injection H as _ <-. reflexivity. }
  intros H. unfold try_rethrow in H. unfold bind at 1, liftR at 1 in H.
  destruct (generate (participants t) (tournament_type t)) as [b|msg].
  - unfold bind at 1, modify at 1 in H. unfold bind at 1, modify at 1 in H.
    unfold bind at 1 in H. cbn [get] in H.
    unfold bind at 1, liftR at 1 in H.
    set (t1 := set_status Running (set_bracket (Some b) t)) in *.
    assert (roster t1 = roster t) as Ht1 by reflexivity.
    destruct (saveTournament env t1) as [u|msg].
    + unfold bind at 1 in H.
      destruct (processTournamentRounds env t1) as [[u'|msg] t2] eqn:Hp;
        apply processTournamentRounds_roster in Hp.
      * cbn [get] in H. injection H as _ <-. congruence.
      * injection H as _ <-. rewrite <- Ht1, <- Hp. reflexivity.
    + injection H as _ <-. rewrite <- Ht1. reflexivity.
  - injection H as _ <-. reflexivity.
Qed.




(** X24.  When the storage fails to save the tournament during a join that
    passed every check, [joinTournament] throws the storage's error, but
    the agent stays in the list of participants; the status is unchanged,
    and a second call for the same agent is refused, as full or as already
    registered. *)
Theorem joinTournament_on_save_fails (env : TournamentEnv) (agentId now msg : string)
    (t : Tournament) :
  status t = Registration ->
  at_least (Z.of_nat (length (participants t))) (maxParticipants t) = false ->
  existsb (registered agentId) (participants t) = false ->
  checkTournamentRequirements env t agentId = Ok true ->
  saveTournament env (push_participant (Registered agentId now "registered") t)
  = Throw msg ->
  let t' := push_participant (Registered agentId now "registered") t in
  joinTournament_on env agentId now t = (Throw msg, t')
  /\ status t' = Registration
  /\ forall env' now',
       joinTournament_on env' agentId now' t' = (Throw "Tournament is full", t')
       \/ joinTournament_on env' agentId now' t' = (Throw "Agent already registered", t').
Proof.
  intros Hreg Hfull Hdup Hmeets Hsave t'. split; [|split; [exact Hreg|]].
  - unfold joinTournament_on. rewrite Hreg, bool_decide_eq_true_2 by reflexivity.
    cbn [negb]. rewrite Hfull, Hdup.
    unfold bind at 1, liftR at 1. rewrite Hmeets. cbn [negb].
    unfold bind at 1, modify at 1. unfold bind at 1. cbn [get].
    unfold bind at 1, liftR at 1. rewrite Hsave. reflexivity.
  - intros env' now'. unfold joinTournament_on.
    change (status t') with (status t). rewrite Hreg, bool_decide_eq_true_2 by reflexivity.
    cbn [negb].
    destruct (at_least (Z.of_nat (length (participants t'))) (maxParticipants t'));
      [left; reflexivity|].
    right.
    assert (existsb (registered agentId) (participants t') = true) as ->; [|reflexivity].
    unfold t'. cbn [participants push_participant]. rewrite existsb_app. cbn [existsb].
    unfold registered at 2. cbn [agentId_of].
    rewrite bool_decide_eq_true_2 by reflexivity. apply orb_true_iff. right. reflexivity.
Qed.

Lemma joinTournament_on_save_fails_witness :
  (joinTournament_on env_save_fails "C" "now" open_tournament).1
  = Throw "QuotaExceededError"
  /\ map agentId_of
       (participants (joinTournament_on env_save_fails "C" "now" open_tournament).2)
     = [Some "A"; Some "B"; Some "C"].
Proof.
  destruct (joinTournament_on_save_fails env_save_fails "C" "now" "QuotaExceededError"
              open_tournament)
    as (-> & _); try reflexivity. split; reflexivity.
Defined.

(** ** Starting a tournament on the generator's rounds *)

Lemma processRound_no_next env scenario ri b round :
  Forall (fun r => nextRound r = None) (rounds b) ->
  rounds b !! ri = Some round ->
  processRound env scenario ri b
  = (Ok tt, set_round b ri
              (set_matches round
                 (zip_with set_result (matches round)
                    (map (runMatch env scenario) (matches round))))).
Proof.
  intros Hnext Hround. unfold processRound. rewrite Hround.
  apply advanceWinners_no_next. unfold set_round. cbn [rounds].
  apply Forall_insert; [exact Hnext|]. cbn [set_matches nextRound].
  rewrite Forall_lookup in Hnext. apply (Hnext _ _ Hround).
Qed.

(** A first round flagged final makes the processing of the rounds throw,
    since the round object has no [isComplete] method. *)
Lemma processTournamentRounds_final_first env t b round rest :
  plain_rounds env ->
  bracket t = Some b ->
  rounds b = round :: rest ->
  isFinal round = true ->
  Forall (fun r => nextRound r = None) (rounds b) ->
  is_ok (processTournamentRounds env t).1 = false.
Proof.
  intros Hplain Hb Hrounds Hfinal Hnext.
  unfold processTournamentRounds, bind, get, liftR. rewrite Hb. cbn [property_of].
  rewrite Hrounds. cbn [length processTournamentRounds_from].
  unfold bind at 1. cbn [get]. unfold bind at 1.
  unfold onBracket at 1. rewrite Hb.
  rewrite (processRound_no_next _ _ 0 b round Hnext) by (rewrite Hrounds; reflexivity).
  unfold bind at 1. cbn [get]. unfold bind at 1, liftR at 1.
  cbn [bracket set_bracket mbind option_bind rounds set_round].
  rewrite Hrounds. cbn [insert list_insert lookup list_lookup property_of].
  cbn [isFinal set_matches]. rewrite Hfinal.
  unfold bind at 1, liftR at 1.
  match goal with |- context [round_isComplete env ?r] =>
    pose proof (Hplain r) as Hr; destruct (round_isComplete env r) end;
    [discriminate | reflexivity].
Qed.

Lemma generate_final_first participants type b :
  type = "round-robin" \/ type = "gauntlet" ->
  generate participants type = Ok b ->
  exists round rest, rounds b = round :: rest /\ isFinal round = true.
Proof.
  intros [-> | ->]; unfold generate; cbn.
  - intros H. injection H as <-. eexists _, _. split; reflexivity.
  - destruct participants as [|p [|q ps]]; try discriminate.
    intros H. injection H as <-. eexists _, _. split; reflexivity.
Qed.

(** X25.  With the round objects that the generator builds, which have no
    [isComplete] method, [startTournament] on a tournament open for
    registration never reaches the status completed: it returns the
    tournament in the status running, or throws and leaves it in the status
    error; what the tournament was registered with is untouched.  A
    round-robin or gauntlet tournament, whose first round is flagged final,
    always ends in the status error. *)
Theorem startTournament_on_plain_rounds (env : TournamentEnv) (t t' : Tournament)
    (r : result Tournament) :
  plain_rounds env ->
  status t = Registration ->
  startTournament_on env t = (r, t') ->
  roster t' = roster t
  /\ match r with
     | Ok returned => returned = t' /\ status t' = Running
     | Throw _ => status t' = Errored
     end
  /\ (tournament_type t = "round-robin" \/ tournament_type t = "gauntlet" ->
      status t' = Errored).
Proof.
  intros Hplain Hreg H. split; [eapply startTournament_on_roster, H|].
  unfold startTournament_on in H.
  rewrite Hreg, bool_decide_eq_true_2 in H by reflexivity. cbn [negb] in H.
  unfold try_rethrow in H. unfold bind at 1, liftR at 1 in H.
  destruct (generate (participants t) (tournament_type t)) as [b|msg] eqn:Hgen.
  2: { injection H as <- <-. split; [reflexivity|]. intros _. reflexivity. }
  unfold bind at 1, modify at 1 in H. unfold bind at 1, modify at 1 in H.
  unfold bind at 1 in H. cbn [get] in H.
  unfold bind at 1, liftR at 1 in H.
  set (t1 := set_status Running (set_bracket (Some b) t)) in *.
  destruct (saveTournament env t1) as [u|msg].
  2: { injection H as <- <-. split; [reflexivity|]. intros _. reflexivity. }
  unfold bind at 1 in H.
  destruct (processTournamentRounds env t1) as [[u'|msg] t2] eqn:Hp.
  - cbn [get] in H. injection H as <- <-.
    assert (status t2 = Running) as Hrun.
    { unfold processTournamentRounds, bind, get, liftR in Hp.
      destruct (property_of (bracket t1)); [|discriminate].
      apply (processTournamentRounds_from_plain _ _ Hplain) in Hp.
      unfold status_trace in Hp. apply app_inj_tail in Hp as [_ Hs]. exact Hs. }
    split; [split; [reflexivity | exact Hrun]|].
    intros Htype. exfalso.
    destruct (generate_final_first _ _ _ Htype Hgen) as (round & rest & Hrounds & Hfinal).
    pose proof (processTournamentRounds_final_first env t1 b round rest Hplain eq_refl
                  Hrounds Hfinal (generate_nextRound _ _ _ Hgen)) as Hthrows.
    rewrite Hp in Hthrows. discriminate.
  - injection H as <- <-. split; [reflexivity|]. intros _. reflexivity.
Qed.

Lemma startTournament_on_plain_rounds_witness :
  status (startTournament_on env_quiet round_robin_of_three).2 = Errored.
Proof.
  destruct (startTournament_on env_quiet round_robin_of_three) as [r t'] eqn:Hstart.
  destruct (startTournament_on_plain_rounds env_quiet round_robin_of_three t' r)
    as (_ & _ & Herr).
  - intros round. reflexivity.
  - reflexivity.
  - exact Hstart.
  - apply Herr. left. reflexivity.
Defined.

(** ** Scenario runs: the debugging branch and the recorded steps *)



Lemma debuggingLoop_bound env scenario en remaining :
  forall step fixesFound e r e',
    debuggingLoop env scenario en remaining step fixesFound e = (r, e') ->
    (length (steps e) <= length (steps e') <= length (steps e) + remaining)%nat
    /\ metrics_decisions e' = metrics_decisions e
    /\ forall fixes, r = Ok fixes ->
         fixes <= fixesFound + Z.of_nat (length (steps e') - length (steps e)).
Proof.
  induction remaining as [|remaining IH]; intros step fixesFound e r e' H.
  - injection H as <- <-. split; [lia|]. split; [reflexivity|].
    intros fixes Hf. injection Hf as <-. lia.
  - rewrite debuggingLoop_step in H.
    destruct (negb (lt_num fixesFound (expectedFixes en))).
    { injection H as <- <-. split; [lia|]. split; [reflexivity|].
      intros fixes Hf. injection Hf as <-. lia. }
    destruct (isTimedOut env scenario step e).
    { injection H as <- <-. split; [lia|]. split; [reflexivity|].
      intros fixes Hf. injection Hf as <-. lia. }
    destruct (makeDecision env step) as [d|msg].
    2: { injection H as <- <-. split; [lia|]. split; [reflexivity|]. discriminate. }
    destruct (property_of (testCases en)) as [tc|msg].
    2: { injection H as <- <-. split; [lia|]. split; [reflexivity|]. discriminate. }
    cbv zeta in H. apply IH in H as (Hlen & Hm & Hfix).
    cbn [steps push_step metrics_decisions] in Hlen, Hm, Hfix.
    rewrite length_app in Hlen, Hfix. cbn [length] in Hlen, Hfix.
    split; [lia|]. split; [exact Hm|].
    intros fixes Hf. specialize (Hfix fixes Hf).
    destruct (random_fixFound env step); lia.
Qed.

(** X26.  A run of a debugging scenario records at most five steps, and it
    reports success only without an error and when the scenario names a
    number of expected fixes that is at most the number of steps recorded:
    each step finds at most one fix.  So a debugging scenario that expects
    more than five fixes, or names no number, never succeeds. *)
Theorem run_debugging (env : RunEnv) (scenario : Scenario) (en : Environment) :
  environment scenario = Some en ->
  env_type en = "code_debugging" ->
  let r := (run env scenario newExecution).1 in
  let e' := (run env scenario newExecution).2 in
  (res_steps r <= 5)%nat
  /\ res_steps r = length (steps e')
  /\ (success r = true ->
      res_error r = None
      /\ exists n, expectedFixes en = Some n /\ n <= Z.of_nat (res_steps r))
  /\ ((forall n, expectedFixes en = Some n -> 5 < n) -> success r = false).
Proof.
  intros Hen Htype. cbv zeta.
  destruct (run env scenario newExecution) as [r e'] eqn:Hrun. cbn [fst snd].
  assert ((res_steps r <= 5)%nat
          /\ res_steps r = length (steps e')
          /\ (success r = true ->
              res_error r = None
              /\ exists n, expectedFixes en = Some n /\ n <= Z.of_nat (res_steps r)))
    as (H5 & Hlen & Hsucc).
  { unfold run in Hrun. unfold bind at 1, liftR at 1 in Hrun.
    rewrite Hen in Hrun. cbn [property_of] in Hrun.
    rewrite Htype, bool_decide_eq_true_2 in Hrun by reflexivity.
    set (e0 := set_startTime (now env AtStart) newExecution) in *.
    unfold runDebuggingScenario in Hrun. unfold bind at 1 in Hrun.
    destruct (debuggingLoop env scenario en 5 0 0 e0) as [r1 e1] eqn:Hloop.
    apply debuggingLoop_bound in Hloop as (Hsteps & _ & Hfix).
    change (length (steps e0)) with 0%nat in Hsteps, Hfix.
    destruct r1 as [fixes|msg].
    - unfold bind at 1, modify at 1 in Hrun. unfold bind at 1, modify at 1 in Hrun.
      destruct (generateResults env scenario _) as [r2 e2] eqn:Hres.
      apply generateResults_state in Hres as (Hs & Hc & Hok).
      cbn [steps completed set_endTime set_completed] in Hs, Hc, Hok.
      destruct r2 as [res|msg]; injection Hrun as <- <-.
      + destruct (Hok res eq_refl) as (Hsuccess & Hn & Herr). rewrite Hn, Hs.
        split; [lia|]. split; [reflexivity|]. rewrite Hsuccess.
        intros Hge. split; [exact Herr|].
        destruct (expectedFixes en) as [n|]; [|discriminate].
        exists n. split; [reflexivity|]. cbn [ge_num] in Hge. apply Z.leb_le in Hge.
        specialize (Hfix fixes eq_refl). lia.
      + cbn [generateErrorResults res_steps success steps set_endTime]. rewrite Hs.
        split; [lia|]. split; [reflexivity|]. discriminate.
    - injection Hrun as <- <-.
      cbn [generateErrorResults res_steps success steps set_endTime].
      split; [lia|]. split; [reflexivity|]. discriminate. }
  split; [exact H5|]. split; [exact Hlen|]. split; [exact Hsucc|].
  intros Hmany. destruct (success r) eqn:Hs; [|reflexivity].
  destruct (Hsucc eq_refl) as (_ & n & Hn & Hle). specialize (Hmany n Hn). lia.
Qed.

Lemma run_debugging_witness :
  success (run env_answering two_bugs newExecution).1 = true
  /\ res_steps (run env_answering two_bugs newExecution).1 = 2%nat.
Proof.
  destruct (run_debugging env_answering two_bugs
              {| env_type := "code_debugging"; expectedFixes := Some 2;
                 testCases := Some ["test_1"; "test_2"] |} eq_refl eq_refl)
    as (_ & _ & _).
  split; vm_compute; reflexivity.
Defined.

Lemma genericLoop_answers env scenario remaining :
  forall step e r e',
    length (steps e) = step ->
    (forall i s, steps e !! i = Some s -> step_answers env i s) ->
    genericLoop env scenario remaining step e = (r, e') ->
    forall i s, steps e' !! i = Some s -> step_answers env i s.
Proof.
  induction remaining as [|remaining IH]; intros step e r e' Hlen Hinv H.
  - injection H as _ <-. exact Hinv.
  - rewrite genericLoop_step in H.
    destruct (isComplete e); [injection H as _ <-; exact Hinv|].
    destruct (isTimedOut env scenario step e); [injection H as _ <-; exact Hinv|].
    destruct (makeDecision env step) as [d|msg] eqn:Hd; [|injection H as _ <-; exact Hinv].
    eapply IH; [| |exact H].
    + cbn [steps recordStep push_step]. rewrite length_app. simpl. lia.
    + cbn [steps recordStep push_step]. intros i s Hi.
      destruct (decide (i < length (steps e))%nat) as [Hlt|Hge].
      * rewrite lookup_app_l in Hi by exact Hlt. apply Hinv, Hi.
      * rewrite lookup_app_r in Hi by lia.
        destruct (i - length (steps e))%nat as [|k] eqn:Hk; [|destruct k; discriminate].
        injection Hi as <-. replace i with step by lia.
        split; [reflexivity | exact Hd].
Qed.

Lemma debuggingLoop_answers env scenario en remaining :
  forall step fixesFound e r e',
    length (steps e) = step ->
    (forall i s, steps e !! i = Some s -> step_answers env i s) ->
    debuggingLoop env scenario en remaining step fixesFound e = (r, e') ->
    forall i s, steps e' !! i = Some s -> step_answers env i s.
Proof.
  induction remaining as [|remaining IH]; intros step fixesFound e r e' Hlen Hinv H.
  - injection H as _ <-. exact Hinv.
  - rewrite debuggingLoop_step in H.
    destruct (negb (lt_num fixesFound (expectedFixes en)));
      [injection H as _ <-; exact Hinv|].
    destruct (isTimedOut env scenario step e); [injection H as _ <-; exact Hinv|].
    destruct (makeDecision env step) as [d|msg] eqn:Hd; [|injection H as _ <-; exact Hinv].
    destruct (property_of (testCases en)); [|injection H as _ <-; exact Hinv].
    cbv zeta in H. eapply IH; [| |exact H].
    + cbn [steps push_step]. rewrite length_app. simpl. lia.
    + cbn [steps push_step]. intros i s Hi.
      destruct (decide (i < length (steps e))%nat) as [Hlt|Hge].
      * rewrite lookup_app_l in Hi by exact Hlt. apply Hinv, Hi.
      * rewrite lookup_app_r in Hi by lia.
        destruct (i - length (steps e))%nat as [|k] eqn:Hk; [|destruct k; discriminate].
        injection Hi as <-. replace i with step by lia.
        split; [reflexivity | exact Hd].
Qed.

Lemma run_answers env scenario r e' :
  run env scenario newExecution = (r, e') ->
  forall i s, steps e' !! i = Some s -> step_answers env i s.
Proof.
  unfold run. cbv zeta.
  set (e0 := set_startTime (now env AtStart) newExecution).
  assert (forall i s, steps e0 !! i = Some s -> step_answers env i s) as H0
    by (intros i s Hi; discriminate).
  unfold bind at 1, liftR at 1.
  destruct (environment scenario) as [en|]; cbn [property_of].
  2: { intros H. injection H as _ <-. exact H0. }
  destruct (bool_decide (env_type en = "code_debugging")).
  - unfold runDebuggingScenario. unfold bind at 1.
    destruct (debuggingLoop env scenario en 5 0 0 e0) as [r1 e1] eqn:Hloop.
    pose proof (debuggingLoop_answers _ _ _ _ _ _ _ _ _ eq_refl H0 Hloop) as H1.
    destruct r1 as [fixes|msg].
    + unfold bind at 1, modify at 1. unfold bind at 1, modify at 1.
      destruct (generateResults env scenario _) as [r2 e2] eqn:Hres.
      apply generateResults_state in Hres as (Hs & _).
      cbn [steps set_endTime set_completed] in Hs.
      destruct r2; intros H; injection H as _ <-; cbn [steps set_endTime];
        rewrite Hs; exact H1.
    + intros H. injection H as _ <-. exact H1.
  - unfold runGenericScenario. unfold bind at 1.
    destruct (genericLoop env scenario maxSteps 0 e0) as [r1 e1] eqn:Hloop.
    pose proof (genericLoop_answers _ _ _ _ _ _ _ eq_refl H0 Hloop) as H1.
    destruct r1 as [u|msg].
    + unfold bind at 1, modify at 1.
      destruct (generateResults env scenario _) as [r2 e2] eqn:Hres.
      apply generateResults_state in Hres as (Hs & _).
      cbn [steps set_endTime] in Hs.
      destruct r2; intros H; injection H as _ <-; cbn [steps set_endTime];
        rewrite Hs; exact H1.
    + intros H. injection H as _ <-. exact H1.
Qed.

(** X27.  In every run, of either branch and however it ends, the step
    recorded at position [i] carries the number [i + 1] and the decision
    that the agent's [i]-th call returned: no call of the agent is skipped
    or recorded twice, and a call that threw leaves no step. *)
Theorem run_steps_answers (env : RunEnv) (scenario : Scenario) (i : nat) (s : Step) :
  steps (run env scenario newExecution).2 !! i = Some s ->
  step_number s = Z.of_nat i + 1 /\ makeDecision env i = Ok (decision s).
Proof.
  destruct (run env scenario newExecution) as [r e'] eqn:Hrun. cbn [snd].
  apply (run_answers _ _ _ _ Hrun).
Qed.

Lemma run_steps_answers_witness :
  map step_number (steps (run env_answering planning_scenario newExecution).2)
  = [1; 2; 3; 4; 5]
  /\ makeDecision env_answering 4
     = Ok (Some {| reasoning := "next"; action := Some "plan" |}).
Proof.
  split; [vm_compute; reflexivity|].
  destruct (steps (run env_answering planning_scenario newExecution).2 !! 4%nat)
    as [s|] eqn:Hs; [|vm_compute in Hs; discriminate].
  destruct (run_steps_answers env_answering planning_scenario 4 s Hs) as [_ Hd].
  reflexivity.
Defined.



Lemma fixes_drawn_step env step remaining :
  fixes_drawn env step (S remaining)
  = (if random_fixFound env step then 1 else 0) + fixes_drawn env (S step) remaining.
Proof.
  unfold fixes_drawn. cbn [seq List.filter].
  destruct (random_fixFound env step); cbn [length]; lia.
Qed.

Lemma fixes_drawn_nonneg env step remaining : 0 <= fixes_drawn env step remaining.
Proof. unfold fixes_drawn. lia. Qed.

(** Without a time limit and with an agent that answers, the debugging loop
    returns, and it has found the expected number of fixes exactly when
    enough of the draws behind its steps find one. *)
Lemma debuggingLoop_fixes env scenario en n remaining :
  expectedFixes en = Some n ->
  timeLimit scenario = None ->
  is_Some (testCases en) ->
  (forall k, is_ok (makeDecision env k) = true) ->
  forall step fixesFound e,
    exists fixes e',
      debuggingLoop env scenario en remaining step fixesFound e = (Ok fixes, e')
      /\ (n <= fixes <-> n <= fixesFound + fixes_drawn env step remaining).
Proof.
  intros Hn Hlimit [tc Htc] Hagent.
  induction remaining as [|remaining IH]; intros step fixesFound e.
  - exists fixesFound, e. split; [reflexivity|]. unfold fixes_drawn. simpl. lia.
  - rewrite debuggingLoop_step, Hn. cbn [lt_num].
    pose proof (fixes_drawn_nonneg env step (S remaining)) as Hpos.
    destruct (Z.ltb_spec fixesFound n) as [Hlt|Hge]; cbn [negb].
    2: { exists fixesFound, e. split; [reflexivity|]. lia. }
    unfold isTimedOut. rewrite Hlimit.
    specialize (Hagent step). destruct (makeDecision env step) as [d|msg]; [|discriminate].
    rewrite Htc. cbn [property_of]. cbv zeta.
    match goal with |- context [debuggingLoop _ _ _ _ _ ?f ?e1] =>
      destruct (IH (S step) f e1) as (fixes & e' & Hloop & Hiff) end.
    exists fixes, e'. split; [exact Hloop|].
    rewrite fixes_drawn_step. rewrite Hiff.
    destruct (random_fixFound env step); lia.
Qed.

Lemma generateResults_returns env scenario e :
  is_Some (scoring scenario) ->
  is_Some (objectives scenario) ->
  is_Some (mapM id (metrics_decisions e)) ->
  is_Some (mapM decision (steps e)) ->
  exists res e',
    generateResults env scenario e = (Ok res, e')
    /\ success res = completed e /\ res_error res = None.
Proof.
  intros [sc Hsc] [ob Hob] [ds Hds] [ds' Hds'].
  unfold generateResults, bind, get, liftR, modify, ret. cbn.
  rewrite Hsc, Hob, Hds, Hds'. cbn. eexists _, _. split; [reflexivity|]. split; reflexivity.
Qed.

(** X29.  When a debugging run succeeds: with a scenario that names its
    expected fixes, test cases, objectives and scoring and has no time
    limit, and an agent that returns a decision object at every call, the
    run returns an ordinary result, and its success is true exactly when at
    least the expected number of the five draws behind the steps find a fix
    (always, when no fix is expected). *)
Theorem run_debugging_success (env : RunEnv) (scenario : Scenario) (en : Environment)
    (n : Z) :
  environment scenario = Some en ->
  env_type en = "code_debugging" ->
  expectedFixes en = Some n ->
  timeLimit scenario = None ->
  is_Some (testCases en) ->
  is_Some (scoring scenario) ->
  is_Some (objectives scenario) ->
  (forall k, exists d, makeDecision env k = Ok (Some d)) ->
  let r := (run env scenario newExecution).1 in
  res_error r = None
  /\ (success r = true <-> n <= fixes_drawn env 0 5).
Proof.
  intros Hen Htype Hn Hlimit Htc Hsc Hob Hagent. cbv zeta.
  destruct (run env scenario newExecution) as [r e'] eqn:Hrun. cbn [fst].
  unfold run in Hrun. unfold bind at 1, liftR at 1 in Hrun.
  rewrite Hen in Hrun. cbn [property_of] in Hrun.
  rewrite Htype, bool_decide_eq_true_2 in Hrun by reflexivity.
  set (e0 := set_startTime (now env AtStart) newExecution) in *.
  unfold runDebuggingScenario in Hrun. unfold bind at 1 in Hrun.
  destruct (debuggingLoop_fixes env scenario en n 5 Hn Hlimit Htc) with
    (step := 0%nat) (fixesFound := 0) (e := e0) as (fixes & e1 & Hloop & Hiff).
  { intros k. destruct (Hagent k) as [d ->]. reflexivity. }
  rewrite Hloop in Hrun.
  pose proof (debuggingLoop_bound _ _ _ _ _ _ _ _ _ Hloop) as (_ & Hm & _).
  assert (forall i s, steps e1 !! i = Some s -> step_answers env i s) as Hanswers.
  { apply (debuggingLoop_answers env scenario en 5 0 0 e0 (Ok fixes) e1 eq_refl);
      [|exact Hloop].
    intros i s Hi. discriminate. }
  unfold bind at 1, modify at 1 in Hrun. unfold bind at 1, modify at 1 in Hrun.
  destruct (generateResults_returns env scenario
              (set_endTime (now env AtEnd) (set_completed (ge_num fixes (expectedFixes en)) e1)))
    as (res & e2 & Hres & Hsuccess & Herr); try assumption.
  - cbn [metrics_decisions set_endTime set_completed]. rewrite Hm. cbn. eauto.
  - cbn [steps set_endTime set_completed]. rewrite mapM_is_Some, Forall_lookup.
    intros i s Hi. destruct (Hanswers i s Hi) as [_ Hd].
    destruct (Hagent i) as [d Hd']. rewrite Hd' in Hd. injection Hd as Hd.
    cbn. rewrite <- Hd. eauto.
  - rewrite Hres in Hrun. injection Hrun as <- <-.
    split; [exact Herr|]. rewrite Hsuccess. cbn [completed set_endTime set_completed].
    rewrite Hn. cbn [ge_num]. rewrite Z.leb_le, Hiff. lia.
Qed.

Lemma run_debugging_success_witness :
  success (run env_answering two_bugs newExecution).1 = true.
Proof.
  destruct (run_debugging_success env_answering two_bugs
              {| env_type := "code_debugging"; expectedFixes := Some 2;
                 testCases := Some ["test_1"; "test_2"] |} 2)
    as [_ Hiff];
    [ reflexivity | reflexivity | reflexivity | reflexivity
    | eexists; reflexivity | eexists; reflexivity | eexists; reflexivity
    | intros k; eexists; reflexivity | ].
  apply Hiff. vm_compute. discriminate.
Defined.
